(** * SCpp: successive convexification for 6-DoF powered descent

    A shallow embedding of [src/main.cpp]: the augmented discretization ODE
    ([DiscretizationODE]), the per-interval linearization loop, the
    construction of the second-order-cone subproblem and the outer
    successive-convexification loop of [main].

    Conventions.
    - A C++ [double] is read as a real number ([R]): the statements below are
      the algebraic content of the program, not its rounding behaviour.
      Where the behaviour in question only exists in double arithmetic
      (infinities and NaN), the code is embedded a second time over
      binary64 floats, in the module [Binary64].
    - An Eigen matrix is a function from (row, column) to its entry; only the
      entries inside the declared dimensions are meaningful.  A column vector
      is a matrix whose column 0 is read.
    - [std::array<T, K-1>] is a [list T], written by index with stdpp's
      [<[k := v]>].
    - What the program takes from other libraries (the dynamics [Model] of
      [active_model.hpp], Eigen's [inverse()], odeint's [integrate_adaptive],
      the ECOS solve) is a parameter of the development; calls into them are
      modelled on their normal return. *)

From Stdlib Require Import Floats.
From Stdlib Require Import Reals Lra Lia FunctionalExtensionality.
From stdpp Require Import base list strings.

Open Scope R_scope.

(** Out-of-range reads of the model default to 0. *)
#[global] Instance R_inhabited : Inhabited R := populate 0.

(** [for (size_t i = lo; i < hi; i++) body] as a state transformer. *)
Definition for_range {S : Type} (lo hi : nat) (body : nat -> S -> S) (s : S) : S :=
  foldl (fun acc i => body i acc) s (seq lo (hi - lo)).

(** ** Dense matrices, as Eigen's fixed-size [Matrix<double, r, c>] *)

Module Mat.

Definition matrix := nat -> nat -> R.

(** What [setZero()] leaves. *)
Definition zeros : matrix := fun _ _ => 0.

(** The pattern written by [setIdentity()]. *)
Definition identity : matrix := fun i j => if Nat.eqb i j then 1 else 0.

Definition madd (A B : matrix) : matrix := fun i j => A i j + B i j.
Definition msub (A B : matrix) : matrix := fun i j => A i j - B i j.
Definition mneg (A : matrix) : matrix := fun i j => - A i j.

(** scalar * matrix and matrix * scalar *)
Definition smul (c : R) (A : matrix) : matrix := fun i j => c * A i j.
Definition mscale (A : matrix) (c : R) : matrix := fun i j => A i j * c.

(** [sum_n n f] is f 0 + ... + f (n-1). *)
Fixpoint sum_n (n : nat) (f : nat -> R) : R :=
  match n with
  | O => 0
  | S p => sum_n p f + f p
  end.

(** Matrix product with inner dimension [n]. *)
Definition mmul (n : nat) (A B : matrix) : matrix :=
  fun i j => sum_n n (fun k => A i k * B k j).

(** [M.block<r, c>(i0, j0)] read as an r x c matrix. *)
Definition block (r c i0 j0 : nat) (M : matrix) : matrix :=
  fun i j => if (i <? r)%nat && (j <? c)%nat then M (i0 + i)%nat (j0 + j)%nat else 0.

(** [M.block<r, c>(i0, j0) = B] *)
Definition set_block (r c i0 j0 : nat) (M B : matrix) : matrix :=
  fun i j =>
    if (i0 <=? i)%nat && (i <? i0 + r)%nat && (j0 <=? j)%nat && (j <? j0 + c)%nat
    then B (i - i0)%nat (j - j0)%nat
    else M i j.

(** [M.col(c)] of a matrix with [r] rows. *)
Definition col (r c : nat) (M : matrix) : matrix := block r 1 0 c M.

(** [M(i, k) = v] *)
Definition set_coeff (M : matrix) (i k : nat) (v : R) : matrix :=
  fun i' k' => if Nat.eqb i' i && Nat.eqb k' k then v else M i' k'.

(** Entry-wise equality inside the dimensions r x c. *)
Definition meq (r c : nat) (A B : matrix) : Prop :=
  forall i j, (i < r)%nat -> (j < c)%nat -> A i j = B i j.

End Mat.
Export Mat.

Declare Scope mat_scope.
Delimit Scope mat_scope with M.
Bind Scope mat_scope with matrix.
Notation "A + B" := (madd A B) : mat_scope.
Notation "A - B" := (msub A B) : mat_scope.
Notation "- A" := (mneg A) : mat_scope.
Notation "c \* A" := (smul c A) (at level 40, left associativity) : mat_scope.
Notation "A *\ c" := (mscale A c) (at level 40, left associativity) : mat_scope.

(** ** The variables of [main] that the solver's parameters alias

    [param(A_bar.at(k)(i, j))] stores the address of a [double] living in
    one of [main]'s five coefficient arrays, and the callbacks of the time
    trust region capture [sigma] by reference; the arrays and [sigma] are
    overwritten in every outer iteration.  [frame] is that part of
    [main]'s stack frame, together with the reference trajectory. *)

Module Frame.

Record frame := {
  X : matrix;                 (* Eigen::Matrix<double, n_states, K> *)
  U : matrix;                 (* Eigen::Matrix<double, n_inputs, K> *)
  sigma : R;
  A_bar : list matrix;        (* array<Model::StateMatrix,   K-1> *)
  B_bar : list matrix;        (* array<Model::ControlMatrix, K-1> *)
  C_bar : list matrix;        (* array<Model::ControlMatrix, K-1> *)
  Sigma_bar : list matrix;    (* array<Model::StateVector,   K-1> *)
  z_bar : list matrix         (* array<Model::StateVector,   K-1> *)
}.

Inductive coefficient_array := InA_bar | InB_bar | InC_bar | InSigma_bar | Inz_bar.

(** The address [&arr.at(k)(row, col)]. *)
Record pointer := {
  into : coefficient_array;
  interval : nat;
  row : nat;
  column : nat
}.

Definition array_of (fr : frame) (a : coefficient_array) : list matrix :=
  match a with
  | InA_bar => A_bar fr
  | InB_bar => B_bar fr
  | InC_bar => C_bar fr
  | InSigma_bar => Sigma_bar fr
  | Inz_bar => z_bar fr
  end.

(** Reading through the pointer at the present state of the frame. *)
Definition deref (fr : frame) (p : pointer) : R :=
  (array_of fr (into p) !!! interval p) (row p) (column p).

End Frame.
Export Frame.

(** ** The conic-solver collaborator ([EcosWrapper.hpp], namespace
    [optimization_problem])

    The header is not part of [main.cpp].  What follows is the part of its
    interface that [main] uses, modelled from sections 4.2, 6 and 9 of the
    spec; the fields [compiled], [solved] and [last_status] of the wrapper
    are the model's record of what was done to it. *)

Module Opt.

(** Modelled from the spec: [optimization_problem::Variable], what
    [solver.get_variable(name, indices)] returns: one scalar entry of a
    declared tensor variable. *)
Record Variable_ := {
  name : string;
  tensor_indices : list nat
}.

(** Modelled from the spec: [optimization_problem::Parameter], the numeric
    and functional parameters of section 6 and the tagged variant of section
    9 (constant parameter, callback-evaluated parameter); a parameter built
    from the address of a [double] is read through that address when the
    parameters are refreshed. *)
Inductive Param :=
| Constant (c : R)
| Pointer (p : pointer)
| Callback (callback : frame -> R).

(** Modelled from the spec: [optimization_problem::AffineExpression], the
    weighted sum of section 9: each term is a parameter, alone or multiplied
    with a variable reference. *)
Inductive AffineTerm :=
| ParameterTerm (p : Param)
| LinearTerm (p : Param) (x : Variable_).

Definition AffineExpression := list AffineTerm.

(** Modelled from the spec: the expression construction of section 6
    (scalar-multiply, sum).  [parameter * variable], [double * variable]: *)
Definition times (p : Param) (x : Variable_) : AffineExpression := [LinearTerm p x].
(** a parameter used as an expression *)
Definition lift (p : Param) : AffineExpression := [ParameterTerm p].
(** [expression + expression] *)
Definition plus (e1 e2 : AffineExpression) : AffineExpression := e1 ++ e2.

(** Modelled from the spec: the two constraint forms of section 6,
    [expr == 0] and [norm2(expr_vector) <= expr]. *)
Inductive Constraint :=
| EqualityConstraint (lhs : AffineExpression)
| SecondOrderConeConstraint (norm2_arguments : list AffineExpression) (rhs : AffineExpression).

(** [expr == 0.0]; [main] only compares with the literal 0.0. *)
Definition eq_zero (e : AffineExpression) : Constraint := EqualityConstraint e.
(** [norm2(v) <= expr] *)
Definition norm2_le (v : list AffineExpression) (e : AffineExpression) : Constraint :=
  SecondOrderConeConstraint v e.

(** *** Meaning of parameters, expressions and constraints

    Modelled from the spec: a parameter stands for the number it yields when
    it is read, an affine expression for the sum of its terms, [expr == 0]
    and [norm2(v) <= expr] for the equality and the second-order-cone
    inequality of section 4.2 and the glossary. *)

Definition assignment := Variable_ -> R.

Definition value (fr : frame) (p : Param) : R :=
  match p with
  | Constant c => c
  | Pointer q => deref fr q
  | Callback f => f fr
  end.

Definition eval_term (fr : frame) (rho : assignment) (t : AffineTerm) : R :=
  match t with
  | ParameterTerm p => value fr p
  | LinearTerm p x => value fr p * rho x
  end.

Fixpoint eval (fr : frame) (rho : assignment) (e : AffineExpression) : R :=
  match e with
  | [] => 0
  | t :: e' => eval_term fr rho t + eval fr rho e'
  end.

Fixpoint sum_squares (l : list R) : R :=
  match l with
  | [] => 0
  | x :: l' => x * x + sum_squares l'
  end.

(** The Euclidean norm of a list of reals. *)
Definition norm2 (l : list R) : R := sqrt (sum_squares l).

Definition holds (fr : frame) (rho : assignment) (c : Constraint) : Prop :=
  match c with
  | EqualityConstraint e => eval fr rho e = 0
  | SecondOrderConeConstraint v e => norm2 (map (eval fr rho) v) <= eval fr rho e
  end.

(** *** Parameter refresh: the numeric problem handed to ECOS

    Modelled from the spec: the "refresh parameters" step of section 9, which
    turns every parameter into the number it yields at the present frame. *)

Definition refresh_term (fr : frame) (t : AffineTerm) : AffineTerm :=
  match t with
  | ParameterTerm p => ParameterTerm (Constant (value fr p))
  | LinearTerm p x => LinearTerm (Constant (value fr p)) x
  end.

Definition refresh (fr : frame) (e : AffineExpression) : AffineExpression :=
  map (refresh_term fr) e.

Definition refresh_constraint (fr : frame) (c : Constraint) : Constraint :=
  match c with
  | EqualityConstraint e => EqualityConstraint (refresh fr e)
  | SecondOrderConeConstraint v e =>
      SecondOrderConeConstraint (map (refresh fr) v) (refresh fr e)
  end.

(** *** [class EcosWrapper] *)

(** Modelled from the spec: the structure of the problem (variable set,
    constraints, objective terms; section 4.2). *)
Record structure := {
  tensor_variables : list (string * list nat);
  constraints : list Constraint;
  costs : list AffineExpression
}.

(** Modelled from the spec: [solve() -> success|infeasible|numerical_error]. *)
Inductive status := Optimal | Infeasible | NumericalError.

Record EcosWrapper := {
  problem : structure;
  (** how often [compile_problem_structure] ran on this object *)
  compiled : nat;
  (** the numeric problems solved so far, latest first *)
  solved : list structure;
  last_status : option status;
  (** ECOS' solution vector, by problem index *)
  solution : nat -> R
}.

(** The solver behind the wrapper: the numbering of the scalar variables and
    the interior-point solve of a numeric problem. *)
Record Ecos := {
  problem_index : structure -> string -> list nat -> nat;
  ecos_solve : structure -> status * (nat -> R)
}.

(** Modelled from the spec: the declaring methods of section 6; each appends
    to what is declared.  [fresh] is the wrapper as constructed. *)
Definition fresh : EcosWrapper :=
  {| problem := {| tensor_variables := []; constraints := []; costs := [] |};
     compiled := 0; solved := []; last_status := None; solution := fun _ => 0 |}.

Definition with_problem (f : structure -> structure) (s : EcosWrapper) : EcosWrapper :=
  {| problem := f (problem s); compiled := compiled s; solved := solved s;
     last_status := last_status s; solution := solution s |}.

Definition create_tensor_variable (nm : string) (dims : list nat) : EcosWrapper -> EcosWrapper :=
  with_problem (fun p =>
    {| tensor_variables := tensor_variables p ++ [(nm, dims)];
       constraints := constraints p; costs := costs p |}).

Definition get_variable (nm : string) (indices : list nat) : Variable_ :=
  {| name := nm; tensor_indices := indices |}.

Definition add_constraint (c : Constraint) : EcosWrapper -> EcosWrapper :=
  with_problem (fun p =>
    {| tensor_variables := tensor_variables p;
       constraints := constraints p ++ [c]; costs := costs p |}).

Definition add_minimization_term (e : AffineExpression) : EcosWrapper -> EcosWrapper :=
  with_problem (fun p =>
    {| tensor_variables := tensor_variables p;
       constraints := constraints p; costs := costs p ++ [e] |}).

(** Modelled from the spec: [compile_structure()]. *)
Definition compile_problem_structure (s : EcosWrapper) : EcosWrapper :=
  {| problem := problem s; compiled := S (compiled s); solved := solved s;
     last_status := last_status s; solution := solution s |}.

(** A call of one of the three declaring methods, as the application hook
    of the model makes them. *)
Inductive declaration :=
| CreateTensorVariable (nm : string) (dims : list nat)
| AddConstraint (c : Constraint)
| AddMinimizationTerm (e : AffineExpression).

Definition declare (s : EcosWrapper) (d : declaration) : EcosWrapper :=
  match d with
  | CreateTensorVariable nm dims => create_tensor_variable nm dims s
  | AddConstraint c => add_constraint c s
  | AddMinimizationTerm e => add_minimization_term e s
  end.

(** What a list of such calls declares, by kind. *)
Definition declared_variables (ds : list declaration) : list (string * list nat) :=
  omap (fun d => match d with CreateTensorVariable nm dims => Some (nm, dims) | _ => None end) ds.
Definition declared_constraints (ds : list declaration) : list Constraint :=
  omap (fun d => match d with AddConstraint c => Some c | _ => None end) ds.
Definition declared_costs (ds : list declaration) : list AffineExpression :=
  omap (fun d => match d with AddMinimizationTerm e => Some e | _ => None end) ds.

(** The structure without its numbers: every parameter blanked. *)
Definition blank_term (t : AffineTerm) : AffineTerm :=
  match t with
  | ParameterTerm _ => ParameterTerm (Constant 0)
  | LinearTerm _ x => LinearTerm (Constant 0) x
  end.

Definition blank_constraint (c : Constraint) : Constraint :=
  match c with
  | EqualityConstraint e => EqualityConstraint (map blank_term e)
  | SecondOrderConeConstraint v e =>
      SecondOrderConeConstraint (map (map blank_term) v) (map blank_term e)
  end.

Definition skeleton (p : structure) : structure :=
  {| tensor_variables := tensor_variables p;
     constraints := map blank_constraint (constraints p);
     costs := map (map blank_term) (costs p) |}.

(** The problem with every parameter read at the present frame. *)
Definition numeric_problem (fr : frame) (p : structure) : structure :=
  {| tensor_variables := tensor_variables p;
     constraints := map (refresh_constraint fr) (constraints p);
     costs := map (refresh fr) (costs p) |}.

(** Modelled from the spec: [EcosWrapper::solve_problem], sections 4.2 and 9:
    the structure stays as compiled, the parameters are re-read at solve time
    and the numeric problem goes to the solver. *)
Definition solve_problem (ecos : Ecos) (fr : frame) (s : EcosWrapper) : EcosWrapper :=
  let numeric := numeric_problem fr (problem s) in
  let result := ecos_solve ecos numeric in
  {| problem := problem s; compiled := compiled s; solved := numeric :: solved s;
     last_status := Some (fst result); solution := snd result |}.

(** Modelled from the spec: [get_solution_value(variable, indices)], through
    the index of the scalar in the solution vector. *)
Definition get_tensor_variable_index (ecos : Ecos) (s : EcosWrapper)
    (nm : string) (indices : list nat) : nat :=
  problem_index ecos (problem s) nm indices.

Definition get_solution_value (s : EcosWrapper) (index : nat) : R := solution s index.

End Opt.
Export Opt.

(** ** The dynamics collaborator ([Model], declared in [active_model.hpp])

    The class is not part of [main.cpp]; the program uses exactly these
    members of it. *)

Record Model := {
  n_states : nat;
  n_inputs : nat;
  ode : matrix -> matrix -> matrix;
  state_jacobian : matrix -> matrix -> matrix;
  control_jacobian : matrix -> matrix -> matrix;
  (** [initialize<K>(X, U)] fills the two trajectory buffers *)
  initialize : nat -> matrix -> matrix -> matrix * matrix;
  total_time_guess : R;
  (** [add_application_constraints(solver, K)]: the declarations the hook
      makes on the solver, in order *)
  add_application_constraints : nat -> list declaration
}.

(** ** [class DiscretizationODE] (main.cpp, lines 27-77) *)

Module Discretization.

Record DiscretizationODE := {
  u_t : matrix;
  u_t1 : matrix;
  sigma : R;
  dt : R
}.

Section Call.

(** the member [Model& model] *)
Variable model : Model.
(** Eigen's [MatrixBase::inverse()] on a [Model::StateMatrix] *)
Variable inverse : matrix -> matrix.

(** [n_V_states = 3 + Model::n_states + 2 * Model::n_inputs] *)
Definition n_V_states : nat := 3 + n_states model + 2 * n_inputs model.

(** [void operator()(const state_type &V, state_type &dVdt, const double t)]:
    the content of [dVdt] after the call. *)
Definition call (self : DiscretizationODE) (V dVdt : matrix) (t : R) : matrix :=
  let n := n_states model in
  let m := n_inputs model in
  let x := col n 0 V in
  let u := (u_t self + (t / dt self) \* (u_t1 self - u_t self))%M in
  let alpha := t / dt self in
  let beta := 1 - alpha in
  let A_bar := (sigma self \* state_jacobian model x u)%M in
  let B_bar := (sigma self \* control_jacobian model x u)%M in
  let f := ode model x u in
  let Phi_A_xi := block n n 0 1 V in
  let Phi_A_xi_inverse := inverse Phi_A_xi in
  let cols := 0%nat in
  let dVdt := set_block n 1 0 cols dVdt (sigma self \* f)%M in
  let cols := (cols + 1)%nat in
  let dVdt := set_block n n 0 cols dVdt (mmul n A_bar Phi_A_xi) in
  let cols := (cols + n)%nat in
  let dVdt := set_block n m 0 cols dVdt (mmul n Phi_A_xi_inverse B_bar *\ alpha)%M in
  let cols := (cols + m)%nat in
  let dVdt := set_block n m 0 cols dVdt (mmul n Phi_A_xi_inverse B_bar *\ beta)%M in
  let cols := (cols + m)%nat in
  let dVdt := set_block n 1 0 cols dVdt (mmul n Phi_A_xi_inverse f) in
  let cols := (cols + 1)%nat in
  let dVdt :=
    set_block n 1 0 cols dVdt
      (mmul n Phi_A_xi_inverse (mmul n (- A_bar) x - mmul m B_bar u))%M in
  dVdt.

End Call.

End Discretization.

(** ** odeint: what [integrate_adaptive] with a controlled
    [runge_kutta_dopri5] stepper does to the state

    The library is not part of the repository.  [main] only relies on the
    state it leaves behind; the development takes the routine as a parameter
    and, where a property of it is needed, assumes that the state it returns
    is reached from the initial one by finitely many Dormand-Prince steps, of
    whatever sizes the step-size controller chooses (a rejected trial step
    leaves the state as it was).  [make_controlled(1E-4, 1E-4, stepper)]
    copies the stepper on every call, so the routine is a function of its
    arguments. *)

Module Odeint.

(** The system functor: [sys(x, dxdt, t)] overwrites [dxdt]. *)
Definition system := matrix -> matrix -> R -> matrix.

Section Dopri5.

Variable sys : system.
(** what the stepper's derivative buffers hold before a stage writes them *)
Variable buffers : nat -> matrix.

Definition a2 : R := 1 / 5.
Definition a3 : R := 3 / 10.
Definition a4 : R := 4 / 5.
Definition a5 : R := 8 / 9.
Definition b21 : R := 1 / 5.
Definition b31 : R := 3 / 40.
Definition b32 : R := 9 / 40.
Definition b41 : R := 44 / 45.
Definition b42 : R := -56 / 15.
Definition b43 : R := 32 / 9.
Definition b51 : R := 19372 / 6561.
Definition b52 : R := -25360 / 2187.
Definition b53 : R := 64448 / 6561.
Definition b54 : R := -212 / 729.
Definition b61 : R := 9017 / 3168.
Definition b62 : R := -355 / 33.
Definition b63 : R := 46732 / 5247.
Definition b64 : R := 49 / 176.
Definition b65 : R := -5103 / 18656.
Definition c1 : R := 35 / 384.
Definition c3 : R := 500 / 1113.
Definition c4 : R := 125 / 192.
Definition c5 : R := -2187 / 6784.
Definition c6 : R := 11 / 84.

(** One step of size [h] from [(t, x)]: the new state. *)
Definition do_step (x : matrix) (t h : R) : matrix :=
  let k1 := sys x (buffers 1) t in
  let k2 := sys (x + (h * b21) \* k1)%M (buffers 2) (t + h * a2) in
  let k3 := sys (x + (h * b31) \* k1 + (h * b32) \* k2)%M (buffers 3) (t + h * a3) in
  let k4 := sys (x + (h * b41) \* k1 + (h * b42) \* k2 + (h * b43) \* k3)%M
              (buffers 4) (t + h * a4) in
  let k5 := sys (x + (h * b51) \* k1 + (h * b52) \* k2 + (h * b53) \* k3
                   + (h * b54) \* k4)%M
              (buffers 5) (t + h * a5) in
  let k6 := sys (x + (h * b61) \* k1 + (h * b62) \* k2 + (h * b63) \* k3
                   + (h * b64) \* k4 + (h * b65) \* k5)%M
              (buffers 6) (t + h) in
  (x + (h * c1) \* k1 + (h * c3) \* k3 + (h * c4) \* k4 + (h * c5) \* k5
     + (h * c6) \* k6)%M.

End Dopri5.

(** [steps sys t x x']: [x'] is reached from [x] at time [t] by finitely
    many steps. *)
Inductive steps (sys : system) : R -> matrix -> matrix -> Prop :=
| steps_done t x : steps sys t x x
| steps_next t h buffers x x' :
    steps sys (t + h) (do_step sys buffers x t h) x' -> steps sys t x x'.

(** The assumption on an integration routine
    [integrate sys x start_time end_time dt]. *)
Definition runge_kutta (integrate : system -> matrix -> R -> R -> R -> matrix) : Prop :=
  forall sys x t0 t1 h, steps sys t0 x (integrate sys x t0 t1 h).

(** A routine that takes [count] steps of equal size, with zeroed buffers. *)
Fixpoint n_steps (sys : system) (count : nat) (x : matrix) (t h : R) : matrix :=
  match count with
  | O => x
  | S p => n_steps sys p (do_step sys (fun _ => zeros) x t h) (t + h) h
  end.

Definition integrate_n_steps (count : nat) : system -> matrix -> R -> R -> R -> matrix :=
  fun sys x t0 t1 _ => n_steps sys count x t0 ((t1 - t0) / INR count).

End Odeint.

(** ** [main] (main.cpp, lines 79-305) *)

(** Assignments to the variables of the frame. *)
Definition with_X (v : matrix) (fr : frame) : frame :=
  {| X := v; U := U fr; sigma := sigma fr; A_bar := A_bar fr; B_bar := B_bar fr;
     C_bar := C_bar fr; Sigma_bar := Sigma_bar fr; z_bar := z_bar fr |}.
Definition with_U (v : matrix) (fr : frame) : frame :=
  {| X := X fr; U := v; sigma := sigma fr; A_bar := A_bar fr; B_bar := B_bar fr;
     C_bar := C_bar fr; Sigma_bar := Sigma_bar fr; z_bar := z_bar fr |}.
Definition with_sigma (v : R) (fr : frame) : frame :=
  {| X := X fr; U := U fr; sigma := v; A_bar := A_bar fr; B_bar := B_bar fr;
     C_bar := C_bar fr; Sigma_bar := Sigma_bar fr; z_bar := z_bar fr |}.
Definition with_A_bar (v : list matrix) (fr : frame) : frame :=
  {| X := X fr; U := U fr; sigma := sigma fr; A_bar := v; B_bar := B_bar fr;
     C_bar := C_bar fr; Sigma_bar := Sigma_bar fr; z_bar := z_bar fr |}.
Definition with_B_bar (v : list matrix) (fr : frame) : frame :=
  {| X := X fr; U := U fr; sigma := sigma fr; A_bar := A_bar fr; B_bar := v;
     C_bar := C_bar fr; Sigma_bar := Sigma_bar fr; z_bar := z_bar fr |}.
Definition with_C_bar (v : list matrix) (fr : frame) : frame :=
  {| X := X fr; U := U fr; sigma := sigma fr; A_bar := A_bar fr; B_bar := B_bar fr;
     C_bar := v; Sigma_bar := Sigma_bar fr; z_bar := z_bar fr |}.
Definition with_Sigma_bar (v : list matrix) (fr : frame) : frame :=
  {| X := X fr; U := U fr; sigma := sigma fr; A_bar := A_bar fr; B_bar := B_bar fr;
     C_bar := C_bar fr; Sigma_bar := v; z_bar := z_bar fr |}.
Definition with_z_bar (v : list matrix) (fr : frame) : frame :=
  {| X := X fr; U := U fr; sigma := sigma fr; A_bar := A_bar fr; B_bar := B_bar fr;
     C_bar := C_bar fr; Sigma_bar := Sigma_bar fr; z_bar := v |}.

(** What storage holds before the program writes it: the locals [X], [U]
    and the coefficient arrays are declared without an initializer, and so is
    [V] in every pass of the interval loop. *)
Record uninitialized := {
  X_before : matrix;
  U_before : matrix;
  array_before : coefficient_array -> nat -> matrix;
  (** [V] at its declaration, by outer iteration and interval *)
  V_before : nat -> nat -> matrix
}.

(** The program state between statements of the outer loop. *)
Record state := {
  locals : frame;
  solver : EcosWrapper;
  (** the iteration numbers printed by [cout << "Iteration " << it] *)
  console : list nat
}.

Module Main.

Section main.

Variable model : Model.
Variable inverse : matrix -> matrix.
Variable integrate_adaptive : Odeint.system -> matrix -> R -> R -> R -> matrix.
Variable ecos : Ecos.
Variable garbage : uninitialized.

(** [constexpr size_t K = 50] *)
Variable K : nat.

(** [const double dt = 1 / double(K-1)] *)
Definition dt : R := 1 / INR (K - 1).

Definition weight_trust_region_sigma : R := 1.
Definition weight_trust_region_xu : R := 1 / 1000.
Definition weight_virtual_control : R := 100.

(** *** Solver setup (lines 117-220) *)

Definition var (nm : string) (indices : list nat) : Variable_ := get_variable nm indices.
Definition param (a : coefficient_array) (k i j : nat) : Param :=
  Pointer {| into := a; interval := k; row := i; column := j |}.
Definition param_fn (callback : frame -> R) : Param := Callback callback.

(** The left-hand side [eq] of the constraint of interval [k] and state row
    [row_index] (lines 144-165). *)
Definition dynamics_equation (k row_index : nat) : AffineExpression :=
  let eq := times (Constant (-1)) (var "X" [row_index; (k + 1)%nat]) in
  let eq := for_range 0 (n_states model) (fun col_index eq =>
              plus eq (times (param InA_bar k row_index col_index) (var "X" [col_index; k]))) eq in
  let eq := for_range 0 (n_inputs model) (fun col_index eq =>
              plus eq (times (param InB_bar k row_index col_index) (var "U" [col_index; k]))) eq in
  let eq := for_range 0 (n_inputs model) (fun col_index eq =>
              plus eq (times (param InC_bar k row_index col_index)
                         (var "U" [col_index; (k + 1)%nat]))) eq in
  let eq := plus eq (times (param InSigma_bar k row_index 0) (var "sigma" [])) in
  let eq := plus eq (lift (param Inz_bar k row_index 0)) in
  let eq := plus eq (times (Constant 1) (var "nu" [row_index; k])) in
  eq.

(** Lines 136-169. *)
Definition add_dynamics (s : EcosWrapper) : EcosWrapper :=
  for_range 0 (K - 1) (fun k s =>
    for_range 0 (n_states model) (fun row_index s =>
      add_constraint (eq_zero (dynamics_equation k row_index)) s) s) s.

(** Lines 176-181. *)
Definition virtual_control_vector : list AffineExpression :=
  for_range 0 (K - 1) (fun k v =>
    for_range 0 (n_states model) (fun row_index v =>
      v ++ [times (Constant 1) (var "nu" [row_index; k])]) v) [].

(** Lines 175-186. *)
Definition add_virtual_control_norm (s : EcosWrapper) : EcosWrapper :=
  let s := add_constraint
             (norm2_le virtual_control_vector (times (Constant 1) (var "norm2_nu" []))) s in
  add_minimization_term (times (Constant weight_virtual_control) (var "norm2_nu" [])) s.

Definition sigma_fn1 : Param := param_fn (fun fr => - sigma fr).
Definition sigma_fn2 : Param := param_fn (fun fr => 0.5 + 0.5 * sigma fr * sigma fr).
Definition sigma_fn3 : Param := param_fn (fun fr => sigma fr).
Definition sigma_fn4 : Param := param_fn (fun fr => 0.5 - 0.5 * sigma fr * sigma fr).

(** The constraint of lines 203-209. *)
Definition sigma_trust_region : Constraint :=
  norm2_le
    [ plus (plus (times sigma_fn1 (var "sigma" []))
                 (times (Constant (-0.5)) (var "Delta_sigma" [])))
           (lift sigma_fn2);
      times (Constant 1) (var "sigma" []) ]
    (plus (plus (times sigma_fn3 (var "sigma" []))
                (times (Constant 0.5) (var "Delta_sigma" [])))
          (lift sigma_fn4)).

(** Lines 196-213. *)
Definition add_sigma_trust_region (s : EcosWrapper) : EcosWrapper :=
  let s := add_constraint sigma_trust_region s in
  add_minimization_term (times (Constant weight_trust_region_sigma) (var "Delta_sigma" [])) s.

(** Lines 120-125. *)
Definition declare_variables (s : EcosWrapper) : EcosWrapper :=
  let s := create_tensor_variable "X" [n_states model; K] s in
  let s := create_tensor_variable "U" [n_inputs model; K] s in
  let s := create_tensor_variable "nu" [n_states model; (K - 1)%nat] s in
  let s := create_tensor_variable "norm2_nu" [] s in
  let s := create_tensor_variable "sigma" [] s in
  create_tensor_variable "Delta_sigma" [] s.

(** The block from [EcosWrapper solver;] to [End solver setup]. *)
Definition solver_setup : EcosWrapper :=
  let s := fresh in
  let s := declare_variables s in
  let s := add_minimization_term (times (Constant 1) (var "sigma" [])) s in
  let s := add_dynamics s in
  let s := add_virtual_control_norm s in
  let s := add_sigma_trust_region s in
  let s := foldl declare s (add_application_constraints model K) in
  compile_problem_structure s.

(** *** One pass of the interval loop (lines 241-254) *)

Definition setZero (_ : matrix) : matrix := zeros.

(** [V] as handed to [integrate_adaptive]. *)
Definition initial_V (V : matrix) (fr : frame) (k : nat) : matrix :=
  let n := n_states model in
  let V := setZero V in
  let V := set_block n 1 0 0 V (col n k (X fr)) in
  let V := set_block n n 0 1 V identity in
  V.

Definition discretizationODE (fr : frame) (k : nat) : Discretization.DiscretizationODE :=
  let m := n_inputs model in
  {| Discretization.u_t := col m k (U fr);
     Discretization.u_t1 := col m (k + 1) (U fr);
     Discretization.sigma := sigma fr;
     Discretization.dt := dt |}.

(** Lines 242-247: [V] after [integrate_adaptive]. *)
Definition integrate_interval (V : matrix) (fr : frame) (k : nat) : matrix :=
  let V := initial_V V fr k in
  integrate_adaptive (Discretization.call model inverse (discretizationODE fr k))
    V 0 dt (dt / 10).

Definition linearize_interval (it k : nat) (fr : frame) : frame :=
  let n := n_states model in
  let m := n_inputs model in
  let V := V_before garbage it k in
  let V := integrate_interval V fr k in
  let cols := 1%nat in
  let fr := with_A_bar (<[k := block n n 0 cols V]> (A_bar fr)) fr in
  let cols := (cols + n)%nat in
  let fr := with_B_bar (<[k := mmul n (A_bar fr !!! k) (block n m 0 cols V)]> (B_bar fr)) fr in
  let cols := (cols + m)%nat in
  let fr := with_C_bar (<[k := mmul n (A_bar fr !!! k) (block n m 0 cols V)]> (C_bar fr)) fr in
  let cols := (cols + m)%nat in
  let fr := with_Sigma_bar
              (<[k := mmul n (A_bar fr !!! k) (block n 1 0 cols V)]> (Sigma_bar fr)) fr in
  let cols := (cols + 1)%nat in
  let fr := with_z_bar (<[k := mmul n (A_bar fr !!! k) (block n 1 0 cols V)]> (z_bar fr)) fr in
  fr.

(** Lines 240-266. *)
Definition linearize (it : nat) (fr : frame) : frame :=
  for_range 0 (K - 1) (linearize_interval it) fr.

(** *** Reading the solution back (lines 276-280) *)

Definition read_solution (s : EcosWrapper) (X_indices U_indices : nat -> nat -> nat)
    (sigma_index : nat) (fr : frame) : frame :=
  let fr := for_range 0 K (fun k fr =>
              let fr := for_range 0 (n_states model) (fun i fr =>
                          with_X (set_coeff (X fr) i k (get_solution_value s (X_indices i k))) fr)
                          fr in
              for_range 0 (n_inputs model) (fun i fr =>
                with_U (set_coeff (U fr) i k (get_solution_value s (U_indices i k))) fr) fr)
              fr in
  with_sigma (get_solution_value s sigma_index) fr.

(** *** The outer loop (lines 233-304) *)

(** The indices cached in lines 224-230, taken from the solver [s]. *)
Definition sigma_index (s : EcosWrapper) : nat := get_tensor_variable_index ecos s "sigma" [].
Definition X_indices (s : EcosWrapper) (i k : nat) : nat :=
  get_tensor_variable_index ecos s "X" [i; k].
Definition U_indices (s : EcosWrapper) (i k : nat) : nat :=
  get_tensor_variable_index ecos s "U" [i; k].

(** The body of [for (size_t it = 1; it < iterations + 1; it++)], with the
    indices cached before the loop. *)
Definition iteration (Xi Ui : nat -> nat -> nat) (si : nat) (it : nat) (st : state) : state :=
  let out := console st ++ [it] in
  let fr := linearize it (locals st) in
  let s := solve_problem ecos fr (solver st) in
  let fr := read_solution s Xi Ui si fr in
  {| locals := fr; solver := s; console := out |}.

Definition iterations : nat := 10.

(** The state at the loop's entry: after initialization and solver setup. *)
Definition before_loop : state :=
  let XU := initialize model K (X_before garbage) (U_before garbage) in
  let fr := {| X := fst XU; U := snd XU; sigma := total_time_guess model;
               A_bar := map (array_before garbage InA_bar) (seq 0 (K - 1));
               B_bar := map (array_before garbage InB_bar) (seq 0 (K - 1));
               C_bar := map (array_before garbage InC_bar) (seq 0 (K - 1));
               Sigma_bar := map (array_before garbage InSigma_bar) (seq 0 (K - 1));
               z_bar := map (array_before garbage Inz_bar) (seq 0 (K - 1)) |} in
  {| locals := fr; solver := solver_setup; console := [] |}.

(** The outer loop run for [count] passes, [it = 1 .. count]. *)
Definition run (count : nat) : state :=
  let st := before_loop in
  let s := solver st in
  for_range 1 (count + 1) (iteration (X_indices s) (U_indices s) (sigma_index s)) st.

Definition main : state := run iterations.

End main.

End Main.

(** [constexpr size_t K = 50] *)
Definition K : nat := 50.

(** The five coefficient arrays have [len] entries each. *)
Definition sized (len : nat) (fr : frame) : Prop :=
  length (A_bar fr) = len /\ length (B_bar fr) = len /\ length (C_bar fr) = len /\
  length (Sigma_bar fr) = len /\ length (z_bar fr) = len.

(** Static dynamics: [ode] returns the zero vector and both Jacobians the
    zero matrix, for all arguments. *)
Definition static (model : Model) : Prop :=
  forall x u,
    meq (n_states model) 1 (ode model x u) zeros /\
    meq (n_states model) (n_states model) (state_jacobian model x u) zeros /\
    meq (n_states model) (n_inputs model) (control_jacobian model x u) zeros.

(** ** Small instances of the collaborators

    One state and one input, as in the concrete scenario of the spec's
    section 8: [integrator] is x' = u; [at_rest] has f = 0 and zero
    Jacobians. *)

Module Example.

Definition integrator : Model :=
  {| n_states := 1;
     n_inputs := 1;
     ode := fun x u => col 1 0 u;
     state_jacobian := fun x u => zeros;
     control_jacobian := fun x u => block 1 1 0 0 identity;
     initialize := fun K X U => (zeros, zeros);
     total_time_guess := 1;
     add_application_constraints := fun K =>
       [ AddConstraint (eq_zero (times (Constant 1) (get_variable "X" [0%nat; 0%nat])));
         AddConstraint (eq_zero (plus (times (Constant 1) (get_variable "X" [0%nat; (K - 1)%nat]))
                                      (lift (Constant (-1))))) ] |}.

Definition at_rest : Model :=
  {| n_states := 1;
     n_inputs := 1;
     ode := fun x u => zeros;
     state_jacobian := fun x u => zeros;
     control_jacobian := fun x u => zeros;
     initialize := fun K X U => (zeros, zeros);
     total_time_guess := 1;
     add_application_constraints := fun K => [] |}.

(** Eigen's inverse of a 1 x 1 matrix: the reciprocal of its entry. *)
Definition inverse (M : matrix) : matrix := block 1 1 0 0 (fun _ _ => / M 0%nat 0%nat).

(** A solver that numbers the scalars somehow and answers every problem
    with the same vector and the status "infeasible". *)
Definition ecos : Ecos :=
  {| problem_index := fun _ nm indices => (String.length nm + foldr Nat.add 0 indices)%nat;
     ecos_solve := fun _ => (Infeasible, fun index => INR index) |}.

(** Uninitialized storage full of sevens. *)
Definition sevens : uninitialized :=
  {| X_before := fun _ _ => 7;
     U_before := fun _ _ => 7;
     array_before := fun _ _ _ _ => 7;
     V_before := fun _ _ _ _ => 7 |}.

End Example.

(** ** The Integrator in double arithmetic

    Infinities and NaN do not exist among the real numbers, so what the
    code does with them is read off a second embedding of
    [DiscretizationODE::operator()] (lines 51-76) and of the read-back of
    the interval loop (lines 249-254), over IEEE 754 binary64 floats.
    The text of the definitions is that of [Discretization.call] and of
    [Main.integrate_interval], with [float] in the place of [R]. *)

Module Binary64.

Definition matrix := nat -> nat -> float.

Definition zeros : matrix := fun _ _ => 0%float.

Definition madd (A B : matrix) : matrix := fun i j => (A i j + B i j)%float.
Definition msub (A B : matrix) : matrix := fun i j => (A i j - B i j)%float.
Definition mneg (A : matrix) : matrix := fun i j => (- A i j)%float.
Definition smul (c : float) (A : matrix) : matrix := fun i j => (c * A i j)%float.
Definition mscale (A : matrix) (c : float) : matrix := fun i j => (A i j * c)%float.

(** [sum_upto p f] is f 0 + ... + f p, added from the left. *)
Fixpoint sum_upto (p : nat) (f : nat -> float) : float :=
  match p with
  | O => f O
  | S q => (sum_upto q f + f (S q))%float
  end.

(** The sum of [n] terms; Eigen starts from the first term, and from zero
    only when there is none. *)
Definition sum_n (n : nat) (f : nat -> float) : float :=
  match n with
  | O => 0%float
  | S p => sum_upto p f
  end.

(** Matrix product with inner dimension [n]. *)
Definition mmul (n : nat) (A B : matrix) : matrix :=
  fun i j => sum_n n (fun k => (A i k * B k j)%float).

Definition block (r c i0 j0 : nat) (M : matrix) : matrix :=
  fun i j => if (i <? r)%nat && (j <? c)%nat then M (i0 + i)%nat (j0 + j)%nat else 0%float.

Definition set_block (r c i0 j0 : nat) (M B : matrix) : matrix :=
  fun i j =>
    if (i0 <=? i)%nat && (i <? i0 + r)%nat && (j0 <=? j)%nat && (j <? j0 + c)%nat
    then B (i - i0)%nat (j - j0)%nat
    else M i j.

Definition col (r c : nat) (M : matrix) : matrix := block r 1 0 c M.


(** The members of [Model] that [operator()] calls. *)
Record Model := {
  n_states : nat;
  n_inputs : nat;
  ode : matrix -> matrix -> matrix;
  state_jacobian : matrix -> matrix -> matrix;
  control_jacobian : matrix -> matrix -> matrix
}.

Record DiscretizationODE := {
  u_t : matrix;
  u_t1 : matrix;
  sigma : float;
  dt : float
}.

(** [const double dt = 1 / double(K-1)] (line 84) *)
Definition interval_width (K : nat) : float :=
  (1 / of_uint63 (Uint63.of_Z (Z.of_nat (K - 1))))%float.

Section Call.

Variable model : Model.
(** Eigen's [MatrixBase::inverse()] on a [Model::StateMatrix] *)
Variable inverse : matrix -> matrix.

(** [void operator()(const state_type &V, state_type &dVdt, const double t)]:
    the content of [dVdt] after the call. *)
Definition call (self : DiscretizationODE) (V dVdt : matrix) (t : float) : matrix :=
  let n := n_states model in
  let m := n_inputs model in
  let x := col n 0 V in
  let u := madd (u_t self) (smul (t / dt self)%float (msub (u_t1 self) (u_t self))) in
  let alpha := (t / dt self)%float in
  let beta := (1 - alpha)%float in
  let A_bar := smul (sigma self) (state_jacobian model x u) in
  let B_bar := smul (sigma self) (control_jacobian model x u) in
  let f := ode model x u in
  let Phi_A_xi := block n n 0 1 V in
  let Phi_A_xi_inverse := inverse Phi_A_xi in
  let cols := 0%nat in
  let dVdt := set_block n 1 0 cols dVdt (smul (sigma self) f) in
  let cols := (cols + 1)%nat in
  let dVdt := set_block n n 0 cols dVdt (mmul n A_bar Phi_A_xi) in
  let cols := (cols + n)%nat in
  let dVdt := set_block n m 0 cols dVdt (mscale (mmul n Phi_A_xi_inverse B_bar) alpha) in
  let cols := (cols + m)%nat in
  let dVdt := set_block n m 0 cols dVdt (mscale (mmul n Phi_A_xi_inverse B_bar) beta) in
  let cols := (cols + m)%nat in
  let dVdt := set_block n 1 0 cols dVdt (mmul n Phi_A_xi_inverse f) in
  let cols := (cols + 1)%nat in
  let dVdt :=
    set_block n 1 0 cols dVdt
      (mmul n Phi_A_xi_inverse (msub (mmul n (mneg A_bar) x) (mmul m B_bar u))) in
  dVdt.



End Call.

(** One state and one input: x' = u, and Eigen's inverse of a 1 x 1
    matrix, which is [1 / entry] (a division by zero gives an infinity). *)
Module Example.

Definition integrator : Model :=
  {| n_states := 1;
     n_inputs := 1;
     ode := fun x u => col 1 0 u;
     state_jacobian := fun x u => zeros;
     control_jacobian := fun x u => block 1 1 0 0 (fun _ _ => 1%float) |}.

Definition inverse (M : matrix) : matrix :=
  block 1 1 0 0 (fun _ _ => (1 / M 0%nat 0%nat)%float).


(** The interval of the program's K = 50, with controls 0.5 and 1 at its
    ends and the time scale 1. *)
Definition interval : DiscretizationODE :=
  {| u_t := fun _ _ => 0.5%float;
     u_t1 := fun _ _ => 1%float;
     sigma := 1%float;
     dt := interval_width 50 |}.

End Example.

End Binary64.

(** * Properties *)

(** ** Blocks and sums *)

Section MatFacts.

Implicit Types (A B M : matrix) (i j r c : nat).

Lemma block_inside r c i0 j0 M i j :
  (i < r)%nat -> (j < c)%nat -> block r c i0 j0 M i j = M (i0 + i)%nat (j0 + j)%nat.
Proof.
  intros Hi Hj. unfold block.
  destruct (Nat.ltb_spec i r), (Nat.ltb_spec j c); simpl; try lia; reflexivity.
Qed.

Lemma block_outside r c i0 j0 M i j :
  (r <= i)%nat \/ (c <= j)%nat -> block r c i0 j0 M i j = 0.
Proof.
  intros H. unfold block.
  destruct (Nat.ltb_spec i r), (Nat.ltb_spec j c); simpl; try lia; reflexivity.
Qed.

Lemma set_block_inside r c i0 j0 M B i j :
  (i0 <= i < i0 + r)%nat -> (j0 <= j < j0 + c)%nat ->
  set_block r c i0 j0 M B i j = B (i - i0)%nat (j - j0)%nat.
Proof.
  intros Hi Hj. unfold set_block.
  destruct (Nat.leb_spec i0 i), (Nat.ltb_spec i (i0 + r)),
    (Nat.leb_spec j0 j), (Nat.ltb_spec j (j0 + c)); simpl; try lia; reflexivity.
Qed.

Lemma set_block_outside r c i0 j0 M B i j :
  ~ ((i0 <= i < i0 + r)%nat /\ (j0 <= j < j0 + c)%nat) ->
  set_block r c i0 j0 M B i j = M i j.
Proof.
  intros H. unfold set_block.
  destruct (Nat.leb_spec i0 i), (Nat.ltb_spec i (i0 + r)),
    (Nat.leb_spec j0 j), (Nat.ltb_spec j (j0 + c)); simpl; try lia; reflexivity.
Qed.

Lemma sum_n_ext n (f g : nat -> R) :
  (forall k, (k < n)%nat -> f k = g k) -> sum_n n f = sum_n n g.
Proof.
  induction n as [|n IH]; intros H; simpl; [reflexivity|].
  rewrite IH, (H n); auto with lia.
Qed.

Lemma sum_n_zero n (f : nat -> R) :
  (forall k, (k < n)%nat -> f k = 0) -> sum_n n f = 0.
Proof.
  induction n as [|n IH]; intros H; simpl; [reflexivity|].
  rewrite IH, (H n); auto with lia. lra.
Qed.

Lemma sum_n_opp n (f : nat -> R) : sum_n n (fun k => - f k) = - sum_n n f.
Proof. induction n as [|n IH]; simpl; [lra | rewrite IH; lra]. Qed.

Lemma sum_n_plus n (f g : nat -> R) :
  sum_n n (fun k => f k + g k) = sum_n n f + sum_n n g.
Proof. induction n as [|n IH]; simpl; [lra | rewrite IH; lra]. Qed.

Lemma sum_n_scal n (a : R) (f : nat -> R) : sum_n n (fun k => a * f k) = a * sum_n n f.
Proof. induction n as [|n IH]; simpl; [lra | rewrite IH; lra]. Qed.

(** A sum with a single non-zero summand. *)
Lemma sum_n_single n (f : nat -> R) k0 :
  (k0 < n)%nat -> (forall k, (k < n)%nat -> k <> k0 -> f k = 0) -> sum_n n f = f k0.
Proof.
  induction n as [|n IH]; intros Hk H; [lia|]. simpl.
  destruct (decide (k0 = n)) as [->|Hne].
  - rewrite sum_n_zero; [lra|]. intros k Hlt. apply H; lia.
  - rewrite IH, (H n); auto with lia. lra.
Qed.

Lemma mmul_neg_l n A B i j : mmul n (- A)%M B i j = - mmul n A B i j.
Proof.
  unfold mmul, mneg. rewrite <- sum_n_opp. apply sum_n_ext. intros; lra.
Qed.

Lemma mmul_zero_l n A B i :
  (forall k, (k < n)%nat -> A i k = 0) -> forall j, mmul n A B i j = 0.
Proof. intros H j. apply sum_n_zero. intros k Hk. rewrite H by done. lra. Qed.

Lemma mmul_zero_r n A B j :
  (forall k, (k < n)%nat -> B k j = 0) -> forall i, mmul n A B i j = 0.
Proof. intros H i. apply sum_n_zero. intros k Hk. rewrite H by done. lra. Qed.

Lemma mmul_ext n A A' B B' i j :
  (forall k, (k < n)%nat -> A i k = A' i k) ->
  (forall k, (k < n)%nat -> B k j = B' k j) ->
  mmul n A B i j = mmul n A' B' i j.
Proof. intros HA HB. apply sum_n_ext. intros k Hk. rewrite HA, HB; done. Qed.

(** The identity pattern is a left unit inside the dimension. *)
Lemma mmul_identity_l n A B i j :
  (i < n)%nat -> (forall k, (k < n)%nat -> A i k = identity i k) ->
  mmul n A B i j = B i j.
Proof.
  intros Hi HA. unfold mmul. rewrite (sum_n_single n _ i Hi).
  - rewrite HA by done. unfold identity. rewrite Nat.eqb_refl. lra.
  - intros k Hk Hne. rewrite HA by done. unfold identity.
    destruct (Nat.eqb_spec i k); [congruence | lra].
Qed.

End MatFacts.

(** ** The derivative function of the Integrator *)

Section DerivativeFacts.

Import Discretization.

Variable model : Model.
Variable inverse : matrix -> matrix.

(** C1.  For every augmented state [V] (state column [x], STM block [Phi])
    and every time [t], with the first-order-held control
    u = u_start + (t/dt) (u_end - u_start), alpha = t/dt, beta = 1 - alpha,
    [operator()] leaves in [dVdt] exactly the six blocks
    sigma f | (sigma df/dx) Phi | Phi^-1 (sigma df/du) alpha |
    Phi^-1 (sigma df/du) beta | Phi^-1 f |
    Phi^-1 (- sigma df/dx x - sigma df/du u),
    with f, df/dx, df/du the model's [ode], [state_jacobian] and
    [control_jacobian] at (x, u); the six blocks fill all of [dVdt], so
    nothing of its former content is left. *)
Theorem C1_derivative_blocks (self : DiscretizationODE) (V dVdt : matrix) (t : R) :
  let n := n_states model in
  let m := n_inputs model in
  let x := col n 0 V in
  let Phi := block n n 0 1 V in
  let alpha := t / dt self in
  let beta := 1 - alpha in
  let u : matrix := fun i j => u_t self i j + t / dt self * (u_t1 self i j - u_t self i j) in
  let f := ode model x u in
  let dfdx := state_jacobian model x u in
  let dfdu := control_jacobian model x u in
  let Phi_inv := inverse Phi in
  let out := call model inverse self V dVdt t in
  meq n 1 (block n 1 0 0 out) (sigma self \* f)%M /\
  meq n n (block n n 0 1 out) (mmul n (sigma self \* dfdx)%M Phi) /\
  meq n m (block n m 0 (1 + n) out) (mmul n Phi_inv (sigma self \* dfdu) *\ alpha)%M /\
  meq n m (block n m 0 (1 + n + m) out) (mmul n Phi_inv (sigma self \* dfdu) *\ beta)%M /\
  meq n 1 (block n 1 0 (1 + n + 2 * m) out) (mmul n Phi_inv f) /\
  meq n 1 (block n 1 0 (2 + n + 2 * m) out)
    (mmul n Phi_inv (- mmul n (sigma self \* dfdx) x - mmul m (sigma self \* dfdu) u))%M /\
  (forall dVdt', meq n (n_V_states model) out (call model inverse self V dVdt' t)).
Proof.
  intros n m x Phi alpha beta u f dfdx dfdu Phi_inv out.
  repeat split;
    lazymatch goal with |- forall _ : matrix, _ => intros dVdt' | _ => idtac end;
    intros i j Hi Hj; try (rewrite block_inside by done);
    subst out; unfold call; fold n m.
  - rewrite !set_block_outside by lia. rewrite set_block_inside by lia.
    replace (0 + i - 0)%nat with i by lia. replace (0 + j - 0)%nat with j by lia. reflexivity.
  - rewrite !set_block_outside by lia. rewrite set_block_inside by lia.
    replace (0 + i - 0)%nat with i by lia.
    replace (1 + j - (0 + 1))%nat with j by lia. reflexivity.
  - rewrite !set_block_outside by lia. rewrite set_block_inside by lia.
    replace (0 + i - 0)%nat with i by lia.
    replace (1 + n + j - (0 + 1 + n))%nat with j by lia. reflexivity.
  - rewrite !set_block_outside by lia. rewrite set_block_inside by lia.
    replace (0 + i - 0)%nat with i by lia.
    replace (1 + n + m + j - (0 + 1 + n + m))%nat with j by lia. reflexivity.
  - rewrite !set_block_outside by lia. rewrite set_block_inside by lia.
    replace (0 + i - 0)%nat with i by lia.
    replace (1 + n + 2 * m + j - (0 + 1 + n + m + m))%nat with j by lia. reflexivity.
  - rewrite set_block_inside by lia.
    replace (0 + i - 0)%nat with i by lia.
    replace (2 + n + 2 * m + j - (0 + 1 + n + m + m + 1))%nat with j by lia.
    apply mmul_ext; [done|]. intros k Hk. unfold msub.
    rewrite mmul_neg_l. reflexivity.
  - unfold n_V_states in Hj. fold n m in Hj.
    repeat match goal with
    | |- context [set_block ?r ?c ?i0 ?j0 ?M ?B i j] =>
        first [ rewrite (set_block_inside r c i0 j0 M B i j) by lia
              | rewrite (set_block_outside r c i0 j0 M B i j) by lia
              | destruct (decide (j0 <= j < j0 + c)%nat);
                [ rewrite (set_block_inside r c i0 j0 M B i j) by lia
                | rewrite (set_block_outside r c i0 j0 M B i j) by lia ] ]
    end; try reflexivity; lia.
Qed.

End DerivativeFacts.

(** ** The time trust region *)

Section TrustRegionFacts.

Lemma sqrt_le_iff (x b : R) : 0 <= x -> (sqrt x <= b <-> 0 <= b /\ x <= b * b).
Proof.
  intros Hx. split.
  - intros Hle. pose proof (sqrt_pos x) as Hpos. pose proof (sqrt_sqrt x Hx) as Hsq.
    split; [lra|]. rewrite <- Hsq. nra.
  - intros [Hb Hle]. rewrite <- (sqrt_square b Hb). apply sqrt_le_1; nra.
Qed.

Lemma sum_squares_nonneg (l : list R) : 0 <= sum_squares l.
Proof. induction l as [|x l IH]; simpl; nra. Qed.

(** What the two sides of the constraint of lines 203-209 evaluate to. *)
Lemma eval_sigma_trust_region (fr : frame) (rho : assignment) :
  let s := rho (Main.var "sigma" []) in
  let D := rho (Main.var "Delta_sigma" []) in
  let s0 := sigma fr in
  holds fr rho Main.sigma_trust_region
  <-> norm2 [ - s0 * s - 0.5 * D + 0.5 * (1 + s0 * s0); s ]
      <= s0 * s + 0.5 * D + 0.5 * (1 - s0 * s0).
Proof.
  intros s D s0. unfold Main.sigma_trust_region, norm2_le, holds. cbn.
  fold s D s0.
  replace (- s0 * s + (-0.5 * D + (0.5 + 0.5 * s0 * s0 + 0)))
    with (- s0 * s - 0.5 * D + 0.5 * (1 + s0 * s0)) by lra.
  replace (1 * s + 0) with s by lra.
  replace (s0 * s + (0.5 * D + (0.5 - 0.5 * s0 * s0 + 0)))
    with (s0 * s + 0.5 * D + 0.5 * (1 - s0 * s0)) by lra.
  reflexivity.
Qed.

(** C4.  For all real sigma, sigma0 and Delta_sigma the second-order-cone
    inequality
    || ( -sigma0 sigma - 0.5 Delta_sigma + 0.5 (1 + sigma0^2), sigma ) ||
       <= sigma0 sigma + 0.5 Delta_sigma + 0.5 (1 - sigma0^2)
    holds if and only if (sigma - sigma0)^2 <= Delta_sigma; and the
    constraint that [main] adds in lines 203-209 holds, at a frame whose
    reference time is sigma0 and at an assignment of the solver's variables,
    exactly when the values of "sigma" and "Delta_sigma" satisfy that
    quadratic bound. *)
Theorem C4_time_trust_region_cone :
  (forall s s0 D : R,
     norm2 [ - s0 * s - 0.5 * D + 0.5 * (1 + s0 * s0); s ]
       <= s0 * s + 0.5 * D + 0.5 * (1 - s0 * s0)
     <-> (s - s0) * (s - s0) <= D) /\
  (forall (fr : frame) (rho : assignment),
     holds fr rho Main.sigma_trust_region
     <-> (rho (Main.var "sigma" []) - sigma fr) * (rho (Main.var "sigma" []) - sigma fr)
         <= rho (Main.var "Delta_sigma" [])).
Proof.
  assert (forall s s0 D : R,
            norm2 [ - s0 * s - 0.5 * D + 0.5 * (1 + s0 * s0); s ]
              <= s0 * s + 0.5 * D + 0.5 * (1 - s0 * s0)
            <-> (s - s0) * (s - s0) <= D) as Hcone.
  { intros s s0 D. unfold norm2.
    rewrite sqrt_le_iff by apply sum_squares_nonneg. simpl. split.
    - (* the two sides of the cone add up to 1: squaring loses nothing *)
      intros [Hb Hle]. nra.
    - (* the right-hand side is at least 1/2, so it is not negative *)
      intros Hq. split; nra. }
  split; [exact Hcone|].
  intros fr rho. rewrite <- Hcone. apply eval_sigma_trust_region.
Qed.

End TrustRegionFacts.

(** ** Counted loops *)

Section LoopFacts.

Context {S : Type}.
Implicit Types (body : nat -> S -> S) (s : S).

Lemma for_range_empty lo hi body s : (hi <= lo)%nat -> for_range lo hi body s = s.
Proof. intros H. unfold for_range. replace (hi - lo)%nat with 0%nat by lia. reflexivity. Qed.

Lemma for_range_last lo hi body s :
  (lo <= hi)%nat -> for_range lo (Datatypes.S hi) body s = body hi (for_range lo hi body s).
Proof.
  intros H. unfold for_range.
  replace (Datatypes.S hi - lo)%nat with (Datatypes.S (hi - lo)) by lia.
  rewrite seq_S, foldl_app. simpl. replace (lo + (hi - lo))%nat with hi by lia. reflexivity.
Qed.

(** Loop invariants: [P i] holds before the pass with index [i]. *)
Lemma for_range_invariant (P : nat -> S -> Prop) lo hi body s :
  (lo <= hi)%nat -> P lo s ->
  (forall i acc, (lo <= i < hi)%nat -> P i acc -> P (Datatypes.S i) (body i acc)) ->
  P hi (for_range lo hi body s).
Proof.
  intros Hle H0 Hstep. induction hi as [|hi IH].
  - assert (lo = 0)%nat as -> by lia. exact H0.
  - destruct (decide (lo = Datatypes.S hi)) as [->|Hne].
    + rewrite for_range_empty by lia. exact H0.
    + rewrite for_range_last by lia. apply Hstep; [lia|].
      apply IH; [lia|]. intros i acc Hi. apply Hstep. lia.
Qed.

End LoopFacts.

(** ** The interval loop *)

Section LinearizeFacts.

Variable model : Model.
Variable inverse : matrix -> matrix.
Variable integrate_adaptive : Odeint.system -> matrix -> R -> R -> R -> matrix.
Variable garbage : uninitialized.
Variable K : nat.

Local Notation "'n'" := (n_states model).
Local Notation "'m'" := (n_inputs model).
Local Abbreviation integrate_interval :=
  (Main.integrate_interval model inverse integrate_adaptive K).
Local Abbreviation linearize_interval :=
  (Main.linearize_interval model inverse integrate_adaptive garbage K).
Local Abbreviation linearize := (Main.linearize model inverse integrate_adaptive garbage K).

(** The five entries that the pass for an interval writes from [V]. *)
Let written (V : matrix) (fr' : frame) (k : nat) : Prop :=
  let A := block n n 0 1 V in
  A_bar fr' !! k = Some A /\
  B_bar fr' !! k = Some (mmul n A (block n m 0 (1 + n) V)) /\
  C_bar fr' !! k = Some (mmul n A (block n m 0 (1 + n + m) V)) /\
  Sigma_bar fr' !! k = Some (mmul n A (block n 1 0 (1 + n + 2 * m) V)) /\
  z_bar fr' !! k = Some (mmul n A (block n 1 0 (2 + n + 2 * m) V)).

Lemma initial_V_state junk fr k :
  meq n 1 (block n 1 0 0 (Main.initial_V model junk fr k)) (col n k (X fr)).
Proof.
  intros i j Hi Hj. rewrite block_inside by done. unfold Main.initial_V.
  rewrite set_block_outside by lia. rewrite set_block_inside by lia.
  replace (0 + i - 0)%nat with i by lia. replace (0 + j - 0)%nat with j by lia.
  reflexivity.
Qed.

Lemma initial_V_stm junk fr k :
  meq n n (block n n 0 1 (Main.initial_V model junk fr k)) identity.
Proof.
  intros i j Hi Hj. rewrite block_inside by done. unfold Main.initial_V.
  rewrite set_block_inside by lia.
  replace (0 + i - 0)%nat with i by lia. replace (1 + j - 1)%nat with j by lia.
  reflexivity.
Qed.

Lemma initial_V_sensitivities junk fr k :
  meq n (2 * m + 2) (block n (2 * m + 2) 0 (1 + n) (Main.initial_V model junk fr k)) zeros.
Proof.
  intros i j Hi Hj. rewrite block_inside by done. unfold Main.initial_V.
  rewrite !set_block_outside by lia. reflexivity.
Qed.

Lemma integrate_interval_reads junk fr fr' k :
  X fr' = X fr -> U fr' = U fr -> sigma fr' = sigma fr ->
  integrate_interval junk fr' k = integrate_interval junk fr k.
Proof.
  intros HX HU Hs. unfold Main.integrate_interval, Main.initial_V, Main.discretizationODE.
  rewrite HX, HU, Hs. reflexivity.
Qed.

Lemma linearize_interval_frame it k fr :
  let fr' := linearize_interval it k fr in
  X fr' = X fr /\ U fr' = U fr /\ sigma fr' = sigma fr /\
  forall len, sized len fr -> sized len fr'.
Proof.
  simpl. repeat split; try reflexivity; simpl;
    rewrite length_insert; apply H.
Qed.

Lemma linearize_interval_other it k fr j :
  j <> k -> forall a, array_of (linearize_interval it k fr) a !! j = array_of fr a !! j.
Proof.
  intros Hne a. destruct a; simpl; apply list_lookup_insert_ne; congruence.
Qed.

Lemma linearize_interval_written it k fr len :
  sized len fr -> (k < len)%nat ->
  written (integrate_interval (V_before garbage it k) fr k) (linearize_interval it k fr) k.
Proof.
  intros (HA & HB & HC & HS & Hz) Hk. unfold written. simpl.
  rewrite !list_lookup_insert_eq by lia.
  rewrite !list_lookup_total_insert_eq by lia.
  repeat split; try reflexivity; do 3 f_equal; lia.
Qed.

Lemma written_other V fr fr' j :
  (forall a, array_of fr' a !! j = array_of fr a !! j) -> written V fr j -> written V fr' j.
Proof.
  intros H (HA & HB & HC & HS & Hz). unfold written.
  pose proof (H InA_bar) as EA. pose proof (H InB_bar) as EB.
  pose proof (H InC_bar) as EC. pose proof (H InSigma_bar) as ES.
  pose proof (H Inz_bar) as Ez. simpl in EA, EB, EC, ES, Ez.
  rewrite EA, EB, EC, ES, Ez. done.
Qed.

(** After the first [hi] passes the frame still has its trajectory, and the
    entries of the intervals below [hi] hold what the frame at the loop's
    entry determines. *)
Lemma linearize_prefix it fr hi :
  sized (K - 1) fr -> (hi <= K - 1)%nat ->
  let fr' := for_range 0 hi (linearize_interval it) fr in
  X fr' = X fr /\ U fr' = U fr /\ sigma fr' = sigma fr /\ sized (K - 1) fr' /\
  forall k, (k < hi)%nat -> written (integrate_interval (V_before garbage it k) fr k) fr' k.
Proof.
  intros Hsized Hhi.
  apply (for_range_invariant (fun i acc =>
    X acc = X fr /\ U acc = U fr /\ sigma acc = sigma fr /\ sized (K - 1) acc /\
    forall k, (k < i)%nat -> written (integrate_interval (V_before garbage it k) fr k) acc k)).
  - lia.
  - split_and!; try done. intros k Hk. lia.
  - intros i acc Hi (HX & HU & Hs & Hsz & Hw).
    destruct (linearize_interval_frame it i acc) as (HX' & HU' & Hs' & Hsz').
    split_and!; [congruence | congruence | congruence | apply Hsz', Hsz |].
    intros k Hk. destruct (decide (k = i)) as [->|Hne].
    + rewrite <- (integrate_interval_reads _ fr acc i HX HU Hs).
      apply (linearize_interval_written it i acc (K - 1)); [done | lia].
    + apply (written_other _ acc); [|apply Hw; lia].
      intros a. apply linearize_interval_other. done.
Qed.

(** C2.  For every interval k the integration starts from a freshly
    initialized augmented state, whatever [V] held at its declaration: state
    column = column k of the reference X, STM block = identity, the four
    sensitivity blocks zero.  After the interval loop, the entries of
    interval k are read from the integrated state:
    A = Phi(dt), B = A (control_start block), C = A (control_end block),
    Sigma = A (sigma block), z = A (bias block); they are determined by the
    reference trajectory and sigma at the loop's entry, which the loop does
    not change, and by nothing an earlier interval left behind. *)
Theorem C2_fresh_state_and_affine_tuple (it : nat) (fr : frame) (k : nat) :
  (k < K - 1)%nat -> sized (K - 1) fr ->
  let V0 := Main.initial_V model (V_before garbage it k) fr k in
  let V := integrate_adaptive
             (Discretization.call model inverse (Main.discretizationODE model K fr k))
             V0 0 (Main.dt K) (Main.dt K / 10) in
  let A := block n n 0 1 V in
  let fr' := linearize it fr in
  (forall junk, Main.initial_V model junk fr k = V0) /\
  meq n 1 (block n 1 0 0 V0) (col n k (X fr)) /\
  meq n n (block n n 0 1 V0) identity /\
  meq n (2 * m + 2) (block n (2 * m + 2) 0 (1 + n) V0) zeros /\
  A_bar fr' !! k = Some A /\
  B_bar fr' !! k = Some (mmul n A (block n m 0 (1 + n) V)) /\
  C_bar fr' !! k = Some (mmul n A (block n m 0 (1 + n + m) V)) /\
  Sigma_bar fr' !! k = Some (mmul n A (block n 1 0 (1 + n + 2 * m) V)) /\
  z_bar fr' !! k = Some (mmul n A (block n 1 0 (2 + n + 2 * m) V)) /\
  X fr' = X fr /\ U fr' = U fr /\ sigma fr' = sigma fr.
Proof.
  intros Hk Hsized V0 V A fr'.
  destruct (linearize_prefix it fr (K - 1) Hsized (Nat.le_refl _))
    as (HX & HU & Hs & _ & Hw).
  specialize (Hw k Hk). unfold written in Hw.
  split; [reflexivity|].
  split; [apply initial_V_state|].
  split; [apply initial_V_stm|].
  split; [apply initial_V_sensitivities|].
  repeat split; try apply Hw; assumption.
Qed.

End LinearizeFacts.

(** ** The subproblem built by the solver setup *)

Section BuilderFacts.

Variable model : Model.
Variable K : nat.

Local Notation "'n'" := (n_states model).
Local Notation "'m'" := (n_inputs model).
Local Abbreviation dynamics_equation := (Main.dynamics_equation model).

Lemma eval_plus fr rho (e1 e2 : AffineExpression) :
  eval fr rho (plus e1 e2) = eval fr rho e1 + eval fr rho e2.
Proof. unfold plus. induction e1 as [|t e1 IH]; simpl; [lra | rewrite IH; lra]. Qed.

Lemma eval_times fr rho p x : eval fr rho (times p x) = value fr p * rho x.
Proof. simpl. lra. Qed.

Lemma eval_lift fr rho p : eval fr rho (lift p) = value fr p.
Proof. simpl. lra. Qed.

(** A loop that appends one product per column evaluates to a sum. *)
Lemma eval_column_loop fr rho (p : nat -> Param) (x : nat -> Variable_) cols e0 :
  eval fr rho (for_range 0 cols (fun c eq => plus eq (times (p c) (x c))) e0)
  = eval fr rho e0 + sum_n cols (fun c => value fr (p c) * rho (x c)).
Proof.
  induction cols as [|cols IH].
  - rewrite for_range_empty by lia. simpl. lra.
  - rewrite for_range_last by lia. rewrite eval_plus, IH, eval_times. simpl. lra.
Qed.

(** The value of the left-hand side of lines 144-165. *)
Lemma eval_dynamics_equation fr rho k row_index :
  eval fr rho (dynamics_equation k row_index)
  = - rho (Main.var "X" [row_index; (k + 1)%nat])
    + sum_n n (fun c => (A_bar fr !!! k) row_index c * rho (Main.var "X" [c; k]))
    + sum_n m (fun c => (B_bar fr !!! k) row_index c * rho (Main.var "U" [c; k]))
    + sum_n m (fun c => (C_bar fr !!! k) row_index c * rho (Main.var "U" [c; (k + 1)%nat]))
    + (Sigma_bar fr !!! k) row_index 0%nat * rho (Main.var "sigma" [])
    + (z_bar fr !!! k) row_index 0%nat
    + rho (Main.var "nu" [row_index; k]).
Proof.
  unfold Main.dynamics_equation.
  rewrite !eval_plus, !eval_times, eval_lift.
  rewrite (eval_column_loop fr rho (fun c => Main.param InC_bar k row_index c)
             (fun c => Main.var "U" [c; (k + 1)%nat])).
  rewrite (eval_column_loop fr rho (fun c => Main.param InB_bar k row_index c)
             (fun c => Main.var "U" [c; k])).
  rewrite (eval_column_loop fr rho (fun c => Main.param InA_bar k row_index c)
             (fun c => Main.var "X" [c; k])).
  rewrite eval_times. simpl. unfold deref. simpl. lra.
Qed.

(** The three declaring methods only append. *)
Lemma add_constraint_constraints c s :
  constraints (problem (add_constraint c s)) = constraints (problem s) ++ [c].
Proof. reflexivity. Qed.

Lemma row_loop_constraints k rows s :
  constraints (problem (for_range 0 rows (fun row_index s =>
      add_constraint (eq_zero (dynamics_equation k row_index)) s) s))
  = constraints (problem s)
    ++ map (fun row_index => eq_zero (dynamics_equation k row_index)) (seq 0 rows).
Proof.
  induction rows as [|rows IH].
  - rewrite for_range_empty by lia. simpl. rewrite app_nil_r. reflexivity.
  - rewrite for_range_last by lia. rewrite add_constraint_constraints, IH.
    rewrite seq_S, map_app, app_assoc. reflexivity.
Qed.

Lemma interval_loop_constraints intervals s :
  constraints (problem (for_range 0 intervals (fun k s =>
      for_range 0 n (fun row_index s =>
        add_constraint (eq_zero (dynamics_equation k row_index)) s) s) s))
  = constraints (problem s)
    ++ flat_map (fun k => map (fun row_index => eq_zero (dynamics_equation k row_index))
                            (seq 0 n)) (seq 0 intervals).
Proof.
  induction intervals as [|intervals IH].
  - rewrite for_range_empty by lia. simpl. rewrite app_nil_r. reflexivity.
  - rewrite for_range_last by lia. rewrite row_loop_constraints, IH.
    rewrite seq_S, flat_map_app. simpl. rewrite app_nil_r, app_assoc. reflexivity.
Qed.

Lemma row_loop_rest k rows s :
  let s' := for_range 0 rows (fun row_index s =>
              add_constraint (eq_zero (dynamics_equation k row_index)) s) s in
  tensor_variables (problem s') = tensor_variables (problem s) /\
  costs (problem s') = costs (problem s) /\ compiled s' = compiled s /\
  solved s' = solved s.
Proof.
  apply (for_range_invariant (fun _ acc =>
    tensor_variables (problem acc) = tensor_variables (problem s) /\
    costs (problem acc) = costs (problem s) /\ compiled acc = compiled s /\
    solved acc = solved s)); [lia | done |].
  intros i acc _ H. exact H.
Qed.

Lemma add_dynamics_rest s :
  let s' := Main.add_dynamics model K s in
  tensor_variables (problem s') = tensor_variables (problem s) /\
  costs (problem s') = costs (problem s) /\ compiled s' = compiled s /\
  solved s' = solved s.
Proof.
  apply (for_range_invariant (fun _ acc =>
    tensor_variables (problem acc) = tensor_variables (problem s) /\
    costs (problem acc) = costs (problem s) /\ compiled acc = compiled s /\
    solved acc = solved s)); [lia | done |].
  intros k acc _ (Hv & Hc & Hn & Hs).
  destruct (row_loop_rest k n acc) as (Hv' & Hc' & Hn' & Hs').
  split_and!; congruence.
Qed.

(** The constraints that lines 136-169 add, in order. *)
Lemma add_dynamics_constraints s :
  constraints (problem (Main.add_dynamics model K s))
  = constraints (problem s)
    ++ flat_map (fun k => map (fun row_index => eq_zero (dynamics_equation k row_index))
                            (seq 0 n)) (seq 0 (K - 1)).
Proof. apply interval_loop_constraints. Qed.

(** The application hook only appends to what is declared. *)
Lemma declare_all ds s :
  let s' := foldl declare s ds in
  tensor_variables (problem s') = tensor_variables (problem s) ++ declared_variables ds /\
  constraints (problem s') = constraints (problem s) ++ declared_constraints ds /\
  costs (problem s') = costs (problem s) ++ declared_costs ds /\
  compiled s' = compiled s /\ solved s' = solved s.
Proof.
  revert s. induction ds as [|d ds IH]; intros s; simpl.
  - rewrite !app_nil_r. done.
  - destruct (IH (declare s d)) as (Hv & Hc & Ho & Hn & Hs).
    rewrite Hv, Hc, Ho, Hn, Hs.
    destruct d; simpl; rewrite <- ?app_assoc; done.
Qed.

(** The problem at the end of the solver setup. *)
Lemma solver_setup_structure :
  let hook := add_application_constraints model K in
  let setup := Main.solver_setup model K in
  tensor_variables (problem setup)
  = [ ("X", [n; K]); ("U", [m; K]); ("nu", [n; (K - 1)%nat]);
      ("norm2_nu", []); ("sigma", []); ("Delta_sigma", []) ] ++ declared_variables hook /\
  constraints (problem setup)
  = flat_map (fun k => map (fun row_index => eq_zero (dynamics_equation k row_index))
                         (seq 0 n)) (seq 0 (K - 1))
    ++ [ norm2_le (Main.virtual_control_vector model K)
           (times (Constant 1) (Main.var "norm2_nu" []));
         Main.sigma_trust_region ]
    ++ declared_constraints hook /\
  costs (problem setup)
  = [ times (Constant 1) (Main.var "sigma" []);
      times (Constant Main.weight_virtual_control) (Main.var "norm2_nu" []);
      times (Constant Main.weight_trust_region_sigma) (Main.var "Delta_sigma" []) ]
    ++ declared_costs hook /\
  compiled setup = 1%nat /\ solved setup = [].
Proof.
  intros hook setup. subst setup. unfold Main.solver_setup.
  match goal with |- context [foldl declare ?s0 _] => set (s := s0) end.
  destruct (declare_all hook s) as (Hv & Hc & Ho & Hn & Hs). fold hook.
  simpl. rewrite Hv, Hc, Ho, Hn, Hs. subst s.
  unfold Main.add_sigma_trust_region, Main.add_virtual_control_norm. simpl.
  match goal with |- context [Main.add_dynamics model K ?s0] => set (s := s0) end.
  destruct (add_dynamics_rest s) as (Hv' & Ho' & Hn' & Hs').
  rewrite add_dynamics_constraints, Hv', Ho', Hn', Hs'. subst s. simpl.
  rewrite <- !app_assoc. simpl. done.
Qed.

End BuilderFacts.

Section DynamicsFacts.

Variable model : Model.
Variable K : nat.

Local Notation "'n'" := (n_states model).
Local Notation "'m'" := (n_inputs model).
Local Abbreviation dynamics_equation := (Main.dynamics_equation model).

(** The slack that closes the equation of interval k, row r, given the
    values of the other variables. *)
Let close_with_nu (fr : frame) (rho : assignment) : assignment :=
  fun v =>
    if decide (name v = "nu") then
      match tensor_indices v with
      | [r; k] =>
          - (eval fr rho (dynamics_equation k r) - rho (Main.var "nu" [r; k]))
      | _ => rho v
      end
    else rho v.

Lemma close_with_nu_elsewhere fr rho (v : Variable_) :
  name v <> "nu" -> close_with_nu fr rho v = rho v.
Proof. intros H. unfold close_with_nu. destruct (decide _); done. Qed.

Lemma close_with_nu_closes fr rho k r :
  eval fr (close_with_nu fr rho) (dynamics_equation k r) = 0.
Proof.
  rewrite eval_dynamics_equation.
  rewrite (close_with_nu_elsewhere fr rho (Main.var "X" _)) by discriminate.
  rewrite (close_with_nu_elsewhere fr rho (Main.var "sigma" _)) by discriminate.
  rewrite (sum_n_ext n
             (fun c => (A_bar fr !!! k) r c * close_with_nu fr rho (Main.var "X" [c; k]))
             (fun c => (A_bar fr !!! k) r c * rho (Main.var "X" [c; k]))); cycle 1.
  { intros c _. rewrite close_with_nu_elsewhere by discriminate. reflexivity. }
  rewrite (sum_n_ext m
             (fun c => (B_bar fr !!! k) r c * close_with_nu fr rho (Main.var "U" [c; k]))
             (fun c => (B_bar fr !!! k) r c * rho (Main.var "U" [c; k]))); cycle 1.
  { intros c _. rewrite close_with_nu_elsewhere by discriminate. reflexivity. }
  rewrite (sum_n_ext m
             (fun c => (C_bar fr !!! k) r c
                       * close_with_nu fr rho (Main.var "U" [c; (k + 1)%nat]))
             (fun c => (C_bar fr !!! k) r c * rho (Main.var "U" [c; (k + 1)%nat]))); cycle 1.
  { intros c _. rewrite close_with_nu_elsewhere by discriminate. reflexivity. }
  assert (close_with_nu fr rho (Main.var "nu" [r; k])
          = - (eval fr rho (dynamics_equation k r) - rho (Main.var "nu" [r; k]))) as ->.
  { unfold close_with_nu. simpl. first [reflexivity | case_decide; done]. }
  rewrite eval_dynamics_equation. lra.
Qed.

(** C3.  The solver setup adds, for every interval k in 0..K-2 and every
    state row, one equality constraint, and these are all the constraints
    its dynamics loop adds; each of them is in the compiled problem.  The
    constraint of interval k and row r says
    x(k+1)_r = (A_k x(k))_r + (B_k u(k))_r + (C_k u(k+1))_r
               + (Sigma_k)_r sigma + (z_k)_r + nu(k)_r,
    with the coefficients read from the arrays of the frame.  For every
    frame and every assignment of the variables there is an assignment that
    differs from it on the slack "nu" only and satisfies all dynamics
    equalities. *)
Theorem C3_dynamics_equalities_feasible :
  let equalities :=
    flat_map (fun k => map (fun r => eq_zero (dynamics_equation k r)) (seq 0 n))
             (seq 0 (K - 1)) in
  (forall s, constraints (problem (Main.add_dynamics model K s))
             = constraints (problem s) ++ equalities) /\
  length equalities = ((K - 1) * n)%nat /\
  (forall k r, (k < K - 1)%nat -> (r < n)%nat ->
     In (eq_zero (dynamics_equation k r)) equalities /\
     In (eq_zero (dynamics_equation k r))
        (constraints (problem (Main.solver_setup model K)))) /\
  (forall fr rho k r,
     holds fr rho (eq_zero (dynamics_equation k r)) <->
     rho (Main.var "X" [r; (k + 1)%nat])
     = sum_n n (fun c => (A_bar fr !!! k) r c * rho (Main.var "X" [c; k]))
       + sum_n m (fun c => (B_bar fr !!! k) r c * rho (Main.var "U" [c; k]))
       + sum_n m (fun c => (C_bar fr !!! k) r c * rho (Main.var "U" [c; (k + 1)%nat]))
       + (Sigma_bar fr !!! k) r 0%nat * rho (Main.var "sigma" [])
       + (z_bar fr !!! k) r 0%nat
       + rho (Main.var "nu" [r; k])) /\
  (forall fr rho, exists rho' : assignment,
     (forall v, name v <> "nu" -> rho' v = rho v) /\
     (forall c, In c equalities -> holds fr rho' c)).
Proof.
  intros equalities.
  assert (forall k r, (k < K - 1)%nat -> (r < n)%nat ->
            In (eq_zero (dynamics_equation k r)) equalities) as Hin.
  { intros k r Hk Hr. apply in_flat_map. exists k. split; [apply in_seq; lia|].
    apply in_map_iff. exists r. split; [reflexivity | apply in_seq; lia]. }
  split_and!.
  - intros s. apply add_dynamics_constraints.
  - subst equalities. generalize (K - 1)%nat as N. intros N.
    induction N as [|N IH]; [reflexivity|].
    rewrite seq_S, flat_map_app, length_app, IH. simpl.
    rewrite length_app, length_map, length_seq. simpl. lia.
  - intros k r Hk Hr. split; [auto|].
    destruct (solver_setup_structure model K) as (_ & Hc & _). rewrite Hc.
    apply in_or_app. left. auto.
  - intros fr rho k r. unfold holds, eq_zero. rewrite eval_dynamics_equation.
    split; intros H; lra.
  - intros fr rho. exists (close_with_nu fr rho). split.
    + intros v Hv. apply close_with_nu_elsewhere, Hv.
    + intros c Hc. apply in_flat_map in Hc as (k & _ & Hc).
      apply in_map_iff in Hc as (r & <- & _). apply close_with_nu_closes.
Qed.

End DynamicsFacts.

(** ** The outer loop *)

Section OuterLoopFacts.

Variable model : Model.
Variable inverse : matrix -> matrix.
Variable integrate_adaptive : Odeint.system -> matrix -> R -> R -> R -> matrix.
Variable ecos : Ecos.
Variable garbage : uninitialized.
Variable K : nat.

Local Notation "'n'" := (n_states model).
Local Notation "'m'" := (n_inputs model).
Local Abbreviation linearize := (Main.linearize model inverse integrate_adaptive garbage K).
Local Abbreviation iteration :=
  (Main.iteration model inverse integrate_adaptive ecos garbage K).
Local Abbreviation run := (Main.run model inverse integrate_adaptive ecos garbage K).
Local Abbreviation before_loop := (Main.before_loop model garbage K).
Local Abbreviation setup := (Main.solver_setup model K).

Lemma set_coeff_same M i k v : set_coeff M i k v i k = v.
Proof. unfold set_coeff. rewrite !Nat.eqb_refl. reflexivity. Qed.

Lemma set_coeff_other M i k v i' k' :
  (i', k') <> (i, k) -> set_coeff M i k v i' k' = M i' k'.
Proof.
  intros H. unfold set_coeff.
  destruct (Nat.eqb_spec i' i), (Nat.eqb_spec k' k); simpl; congruence.
Qed.

(** One column of the read-back: rows below [rows] of column [k] hold the
    solution, everything else is as before. *)
Lemma read_column (get : frame -> matrix) (put : matrix -> frame -> frame)
    (value_of : nat -> R) k rows fr :
  (forall M f, get (put M f) = M) ->
  let fr' := for_range 0 rows (fun i f => put (set_coeff (get f) i k (value_of i)) f) fr in
  forall i k', get fr' i k' = if (i <? rows)%nat && Nat.eqb k' k then value_of i else get fr i k'.
Proof.
  intros Hget. induction rows as [|rows IH]; intros fr' i k'; subst fr'.
  - rewrite for_range_empty by lia. reflexivity.
  - rewrite for_range_last by lia. rewrite Hget.
    destruct (decide ((i, k') = (rows, k))) as [E|E].
    + injection E as -> ->. rewrite set_coeff_same.
      destruct (Nat.ltb_spec rows (Datatypes.S rows)); [|lia]. rewrite Nat.eqb_refl. reflexivity.
    + rewrite set_coeff_other by done. rewrite IH.
      destruct (Nat.ltb_spec i rows), (Nat.ltb_spec i (Datatypes.S rows)),
        (Nat.eqb_spec k' k); simpl; try reflexivity; try lia.
      subst k'. assert (i = rows) by lia. congruence.
Qed.

(** A loop over rows that only assigns [X] (or only [U]) leaves every other
    variable of the frame alone. *)
Lemma column_loop_keeps (put : matrix -> frame -> frame) (next : nat -> frame -> matrix)
    (keep : frame -> Prop) rows fr :
  (forall M f, keep f -> keep (put M f)) -> keep fr ->
  keep (for_range 0 rows (fun i f => put (next i f) f) fr).
Proof.
  intros Hput H0.
  apply (for_range_invariant (fun _ f => keep f)); [lia | done |].
  intros i acc _ H. apply Hput, H.
Qed.

(** The frame after lines 276-280. *)
Lemma read_solution_frame (s : EcosWrapper) Xi Ui si fr :
  let fr' := Main.read_solution model K s Xi Ui si fr in
  (forall i k, X fr' i k
     = if (i <? n)%nat && (k <? K)%nat then get_solution_value s (Xi i k) else X fr i k) /\
  (forall i k, U fr' i k
     = if (i <? m)%nat && (k <? K)%nat then get_solution_value s (Ui i k) else U fr i k) /\
  sigma fr' = get_solution_value s si /\
  (forall a, array_of fr' a = array_of fr a).
Proof.
  unfold Main.read_solution. simpl.
  match goal with |- context [for_range 0 K ?body fr] => set (loop := body) end.
  assert (forall hi,
    let f := for_range 0 hi loop fr in
    (forall i k, X f i k
       = if (i <? n)%nat && (k <? hi)%nat then get_solution_value s (Xi i k) else X fr i k) /\
    (forall i k, U f i k
       = if (i <? m)%nat && (k <? hi)%nat then get_solution_value s (Ui i k) else U fr i k) /\
    (forall a, array_of f a = array_of fr a)) as Hloop.
  { induction hi as [|hi IH]; intros f; subst f.
    - rewrite for_range_empty by lia. split_and!; try done.
      + intros i k. rewrite andb_false_r. reflexivity.
      + intros i k. rewrite andb_false_r. reflexivity.
    - rewrite for_range_last by lia. destruct IH as (HX & HU & Harr).
      set (f := for_range 0 hi loop fr) in *. subst loop. cbv beta.
      set (fX := for_range 0 n _ f).
      assert (forall i k', X fX i k'
                = if (i <? n)%nat && Nat.eqb k' hi
                  then get_solution_value s (Xi i hi) else X f i k') as HfX.
      { apply (read_column X with_X (fun i => get_solution_value s (Xi i hi))). done. }
      assert (U fX = U f /\ forall a, array_of fX a = array_of f a) as (HfU & HfA).
      { apply (column_loop_keeps with_X
                 (fun i f => set_coeff (X f) i hi (get_solution_value s (Xi i hi)))
                 (fun g => U g = U f /\ forall a, array_of g a = array_of f a)); [|done].
        intros M g (H1 & H2). split; [exact H1|]. intros a. rewrite <- H2. destruct a; done. }
      split_and!.
      + intros i k.
        assert (X (for_range 0 m (fun i0 f0 =>
                   with_U (set_coeff (U f0) i0 hi (get_solution_value s (Ui i0 hi))) f0) fX)
                = X fX) as ->.
        { apply (column_loop_keeps with_U
                   (fun i f => set_coeff (U f) i hi (get_solution_value s (Ui i hi)))
                   (fun g => X g = X fX)); done. }
        rewrite HfX, HX.
        destruct (Nat.ltb_spec i n), (Nat.eqb_spec k hi), (Nat.ltb_spec k hi),
          (Nat.ltb_spec k (Datatypes.S hi)); simpl; try reflexivity; try lia; congruence.
      + intros i k.
        rewrite (read_column U with_U (fun i => get_solution_value s (Ui i hi))) by done.
        rewrite HfU, HU.
        destruct (Nat.ltb_spec i m), (Nat.eqb_spec k hi), (Nat.ltb_spec k hi),
          (Nat.ltb_spec k (Datatypes.S hi)); simpl; try reflexivity; try lia; congruence.
      + intros a. rewrite <- Harr, <- HfA.
        apply (column_loop_keeps with_U
                 (fun i f => set_coeff (U f) i hi (get_solution_value s (Ui i hi)))
                 (fun g => array_of g a = array_of fX a)); [|done].
        intros M g H. rewrite <- H. destruct a; done. }
  destruct (Hloop K) as (HX & HU & Harr). split_and!; try done.
  all: intros a; rewrite <- Harr; destruct a; done.
Qed.

Lemma run_0 : run 0 = before_loop.
Proof. unfold Main.run. rewrite for_range_empty by lia. reflexivity. Qed.

(** Pass [count + 1] is one call of the loop body on the state that the
    first [count] passes leave. *)
Lemma run_S count :
  run (Datatypes.S count)
  = iteration (Main.X_indices ecos setup) (Main.U_indices ecos setup)
      (Main.sigma_index ecos setup) (Datatypes.S count) (run count).
Proof.
  unfold Main.run. simpl solver.
  replace (Datatypes.S count + 1)%nat with (Datatypes.S (Datatypes.S count)) by lia.
  rewrite for_range_last by lia.
  replace (count + 1)%nat with (Datatypes.S count) by lia. reflexivity.
Qed.

Lemma run_console count : console (run count) = seq 1 count.
Proof.
  induction count as [|count IH]; [rewrite run_0; reflexivity|].
  rewrite run_S. unfold Main.iteration. cbn [console]. rewrite IH, seq_S. reflexivity.
Qed.

Lemma run_solver count :
  problem (solver (run count)) = problem setup /\
  compiled (solver (run count)) = compiled setup /\
  length (solved (solver (run count))) = (length (solved setup) + count)%nat.
Proof.
  induction count as [|count (Hp & Hc & Hs)].
  - rewrite run_0. cbn [solver Main.before_loop]. split_and!; [done | done | lia].
  - rewrite run_S. unfold Main.iteration, solve_problem.
    cbn [solver problem compiled solved length]. split_and!; [done | done | lia].
Qed.

Lemma linearize_keeps it fr :
  sized (K - 1) fr ->
  let fr' := linearize it fr in
  X fr' = X fr /\ U fr' = U fr /\ sigma fr' = sigma fr /\ sized (K - 1) fr'.
Proof.
  intros Hsized.
  destruct (linearize_prefix model inverse integrate_adaptive garbage K it fr (K - 1)
              Hsized (Nat.le_refl _)) as (HX & HU & Hs & Hsz & _).
  done.
Qed.

Lemma sized_same_arrays fr fr' len :
  (forall a, array_of fr' a = array_of fr a) -> sized len fr -> sized len fr'.
Proof.
  intros H Hsz. unfold sized in *.
  pose proof (H InA_bar) as EA. pose proof (H InB_bar) as EB.
  pose proof (H InC_bar) as EC. pose proof (H InSigma_bar) as ES.
  pose proof (H Inz_bar) as Ez. simpl in EA, EB, EC, ES, Ez.
  rewrite EA, EB, EC, ES, Ez. exact Hsz.
Qed.

(** The frame of the running program always has K-1 entries per array. *)
Lemma run_sized count : sized (K - 1) (locals (run count)).
Proof.
  induction count as [|count IH].
  - rewrite run_0. unfold sized. simpl. rewrite !length_map, !length_seq. done.
  - rewrite run_S. unfold Main.iteration. simpl locals.
    destruct (linearize_keeps (Datatypes.S count) (locals (run count)) IH) as (_ & _ & _ & Hsz).
    match goal with |- sized _ (Main.read_solution _ _ ?s ?Xi ?Ui ?si ?fr) =>
      destruct (read_solution_frame s Xi Ui si fr) as (_ & _ & _ & Harr) end.
    exact (sized_same_arrays _ _ _ Harr Hsz).
Qed.

(** C6.  The outer loop makes exactly [iterations] = 10 passes, numbered
    1..10, each of them one linearize - solve - adopt cycle and none of them
    conditional: pass count+1 is the loop body applied to the state after
    [count] passes.  In every pass, whatever the solver answers (the status
    of the solve is not looked at), every entry of X and of U and the value
    of sigma are overwritten from the solution vector. *)
Theorem C6_fixed_iterations_unconditional_adoption :
  Main.iterations = 10%nat /\
  console (Main.main model inverse integrate_adaptive ecos garbage K)
    = [1; 2; 3; 4; 5; 6; 7; 8; 9; 10]%nat /\
  length (solved (solver (Main.main model inverse integrate_adaptive ecos garbage K)))
    = 10%nat /\
  (forall count,
     run (Datatypes.S count)
     = iteration (Main.X_indices ecos setup) (Main.U_indices ecos setup)
         (Main.sigma_index ecos setup) (Datatypes.S count) (run count)) /\
  (forall Xi Ui si it st,
     let st' := iteration Xi Ui si it st in
     solver st' = solve_problem ecos (linearize it (locals st)) (solver st) /\
     last_status (solver st')
       = Some (fst (ecos_solve ecos
                      (numeric_problem (linearize it (locals st)) (problem (solver st))))) /\
     (forall i k, (i < n)%nat -> (k < K)%nat ->
        X (locals st') i k = get_solution_value (solver st') (Xi i k)) /\
     (forall i k, (i < m)%nat -> (k < K)%nat ->
        U (locals st') i k = get_solution_value (solver st') (Ui i k)) /\
     sigma (locals st') = get_solution_value (solver st') si /\
     console st' = console st ++ [it]).
Proof.
  split_and!.
  - reflexivity.
  - unfold Main.main. rewrite run_console. reflexivity.
  - unfold Main.main. destruct (run_solver Main.iterations) as (_ & _ & Hlen).
    rewrite Hlen. destruct (solver_setup_structure model K) as (_ & _ & _ & _ & Hs).
    rewrite Hs. reflexivity.
  - apply run_S.
  - intros Xi Ui si it st st'. subst st'. unfold Main.iteration.
    cbn [locals solver console].
    match goal with |- context [Main.read_solution _ _ ?s Xi Ui si ?fr] =>
      destruct (read_solution_frame s Xi Ui si fr) as (HX & HU & Hs & _) end.
    split_and!; try done.
    + intros i k Hi Hk. rewrite HX.
      destruct (Nat.ltb_spec i n), (Nat.ltb_spec k K); simpl; try lia. reflexivity.
    + intros i k Hi Hk. rewrite HU.
      destruct (Nat.ltb_spec i m), (Nat.ltb_spec k K); simpl; try lia. reflexivity.
Qed.

Lemma skeleton_numeric fr (p : structure) : skeleton (numeric_problem fr p) = skeleton p.
Proof.
  assert (forall e, map blank_term (refresh fr e) = map blank_term e) as He.
  { intros e. unfold refresh. rewrite map_map. apply map_ext. intros []; reflexivity. }
  unfold skeleton, numeric_problem. simpl. f_equal.
  - rewrite map_map. apply map_ext. intros [e|v e]; simpl; rewrite ?He; [done|].
    f_equal. rewrite map_map. apply map_ext. exact He.
  - rewrite map_map. apply map_ext. exact He.
Qed.

(** What pass [count + 1] hands to ECOS: the compiled problem with its
    parameters read from the frame as the interval loop of that pass left
    it. *)
Lemma run_solved count :
  solved (solver (run (Datatypes.S count)))
  = numeric_problem (linearize (Datatypes.S count) (locals (run count))) (problem setup)
    :: solved (solver (run count)).
Proof.
  rewrite run_S. unfold Main.iteration, solve_problem. cbn [solver solved].
  destruct (run_solver count) as (-> & _). reflexivity.
Qed.

(** C8.  The variables X, U, nu, norm2_nu, sigma and Delta_sigma, the
    equality and cone constraints and the objective terms are declared in
    the solver setup, which is compiled once, before the loop; the loop
    leaves the declared problem and the compile count as they are, and what
    it hands to the solver in each pass is that same problem with the
    parameters replaced by the numbers read from the frame: all solved
    problems have the skeleton of the compiled one. *)
Theorem C8_structure_declared_once (count : nat) :
  let hook := add_application_constraints model K in
  solver before_loop = setup /\
  tensor_variables (problem setup)
  = [ ("X", [n; K]); ("U", [m; K]); ("nu", [n; (K - 1)%nat]);
      ("norm2_nu", []); ("sigma", []); ("Delta_sigma", []) ] ++ declared_variables hook /\
  constraints (problem setup)
  = flat_map (fun k => map (fun r => eq_zero (Main.dynamics_equation model k r)) (seq 0 n))
             (seq 0 (K - 1))
    ++ [ norm2_le (Main.virtual_control_vector model K)
           (times (Constant 1) (Main.var "norm2_nu" []));
         Main.sigma_trust_region ]
    ++ declared_constraints hook /\
  costs (problem setup)
  = [ times (Constant 1) (Main.var "sigma" []);
      times (Constant Main.weight_virtual_control) (Main.var "norm2_nu" []);
      times (Constant Main.weight_trust_region_sigma) (Main.var "Delta_sigma" []) ]
    ++ declared_costs hook /\
  compiled setup = 1%nat /\
  problem (solver (run count)) = problem setup /\
  compiled (solver (run count)) = 1%nat /\
  length (solved (solver (run count))) = count /\
  Forall (fun numeric => skeleton numeric = skeleton (problem setup))
         (solved (solver (run count))) /\
  solved (solver (run (Datatypes.S count)))
  = numeric_problem (linearize (Datatypes.S count) (locals (run count))) (problem setup)
    :: solved (solver (run count)).
Proof.
  intros hook.
  destruct (solver_setup_structure model K) as (Hv & Hc & Ho & Hn & Hs).
  destruct (run_solver count) as (Hp & Hcomp & Hlen).
  split_and!; try done.
  - congruence.
  - rewrite Hlen, Hs. reflexivity.
  - clear Hp Hcomp Hlen. induction count as [|count IH].
    + rewrite run_0. cbn [solver Main.before_loop]. rewrite Hs. constructor.
    + rewrite run_solved. constructor; [apply skeleton_numeric | exact IH].
  - apply run_solved.
Qed.

(** The time-trust-region constraint once its parameters are read at a
    frame whose sigma is [s0]. *)
Lemma refresh_sigma_trust_region fr :
  refresh_constraint fr Main.sigma_trust_region
  = norm2_le
      [ [ LinearTerm (Constant (- sigma fr)) (Main.var "sigma" []);
          LinearTerm (Constant (-0.5)) (Main.var "Delta_sigma" []);
          ParameterTerm (Constant (0.5 + 0.5 * sigma fr * sigma fr)) ];
        [ LinearTerm (Constant 1) (Main.var "sigma" []) ] ]
      [ LinearTerm (Constant (sigma fr)) (Main.var "sigma" []);
        LinearTerm (Constant 0.5) (Main.var "Delta_sigma" []);
        ParameterTerm (Constant (0.5 - 0.5 * sigma fr * sigma fr)) ].
Proof. reflexivity. Qed.

(** C9.  In pass count+1 the coefficients of the time trust region are
    computed, when the problem is solved, from the value that [sigma] has
    then: the value in the state after [count] passes.  Before the first
    pass that is the model's [total_time_guess()]; after each pass it is the
    entry of the solution vector adopted in that pass. *)
Theorem C9_trust_region_reads_live_sigma (count : nat) :
  let sigma0 := sigma (locals (run count)) in
  sigma (locals (run 0)) = total_time_guess model /\
  sigma (locals (run (Datatypes.S count)))
    = get_solution_value (solver (run (Datatypes.S count))) (Main.sigma_index ecos setup) /\
  In Main.sigma_trust_region (constraints (problem (solver (run count)))) /\
  exists numeric,
    solved (solver (run (Datatypes.S count))) = numeric :: solved (solver (run count)) /\
    In (norm2_le
          [ [ LinearTerm (Constant (- sigma0)) (Main.var "sigma" []);
              LinearTerm (Constant (-0.5)) (Main.var "Delta_sigma" []);
              ParameterTerm (Constant (0.5 + 0.5 * sigma0 * sigma0)) ];
            [ LinearTerm (Constant 1) (Main.var "sigma" []) ] ]
          [ LinearTerm (Constant sigma0) (Main.var "sigma" []);
            LinearTerm (Constant 0.5) (Main.var "Delta_sigma" []);
            ParameterTerm (Constant (0.5 - 0.5 * sigma0 * sigma0)) ])
       (constraints numeric).
Proof.
  intros sigma0.
  assert (In Main.sigma_trust_region (constraints (problem setup))) as Hin.
  { destruct (solver_setup_structure model K) as (_ & -> & _).
    apply in_or_app. right. right. left. reflexivity. }
  split_and!.
  - rewrite run_0. reflexivity.
  - rewrite run_S. unfold Main.iteration. cbn [locals solver].
    match goal with |- context [Main.read_solution _ _ ?s ?Xi ?Ui ?si ?fr] =>
      destruct (read_solution_frame s Xi Ui si fr) as (_ & _ & Hs & _) end.
    exact Hs.
  - destruct (run_solver count) as (-> & _). exact Hin.
  - eexists. split; [apply run_solved|].
    destruct (linearize_keeps (Datatypes.S count) (locals (run count)) (run_sized count))
      as (_ & _ & Hsig & _).
    subst sigma0. rewrite <- Hsig, <- refresh_sigma_trust_region.
    unfold numeric_problem. cbn [constraints]. apply in_map, Hin.
Qed.

End OuterLoopFacts.

(** ** Static dynamics *)

Section StaticFacts.

Variable model : Model.
Variable inverse : matrix -> matrix.
Variable integrate_adaptive : Odeint.system -> matrix -> R -> R -> R -> matrix.
Variable garbage : uninitialized.
Variable K : nat.

Local Notation "'n'" := (n_states model).
Local Notation "'m'" := (n_inputs model).
Local Abbreviation n_V := (Discretization.n_V_states model).
Local Abbreviation linearize := (Main.linearize model inverse integrate_adaptive garbage K).

(** With static dynamics the derivative function writes zeros everywhere. *)
Lemma call_static self V dVdt t :
  static model -> meq n n_V (Discretization.call model inverse self V dVdt t) zeros.
Proof.
  intros Hst i j Hi Hj. unfold Discretization.n_V_states in Hj.
  unfold Discretization.call. cbv zeta.
  set (x := col n 0 V).
  set (u := (Discretization.u_t self
             + t / Discretization.dt self
               \* (Discretization.u_t1 self - Discretization.u_t self))%M).
  destruct (Hst x u) as (Hf & Hfx & Hfu).
  assert (forall r c, (r < n)%nat -> (c < n)%nat ->
            (Discretization.sigma self \* state_jacobian model x u)%M r c = 0) as HA.
  { intros r c Hr Hc. unfold smul. rewrite Hfx by done. unfold zeros. lra. }
  assert (forall r c, (r < n)%nat -> (c < m)%nat ->
            (Discretization.sigma self \* control_jacobian model x u)%M r c = 0) as HB.
  { intros r c Hr Hc. unfold smul. rewrite Hfu by done. unfold zeros. lra. }
  assert (forall r, (r < n)%nat -> ode model x u r 0%nat = 0) as Hf0.
  { intros r Hr. rewrite Hf by lia. reflexivity. }
  unfold zeros.
  repeat match goal with
  | |- context [set_block ?r ?c ?i0 ?j0 ?M ?B i j] =>
      destruct (decide (j0 <= j < j0 + c)%nat);
      [ rewrite (set_block_inside r c i0 j0 M B i j) by lia
      | rewrite (set_block_outside r c i0 j0 M B i j) by lia ]
  end; try lia.
  - apply mmul_zero_r. intros k Hk. replace (j - _)%nat with 0%nat by lia.
    unfold msub. rewrite (mmul_zero_l n), (mmul_zero_l m); [lra | |].
    + intros c Hc. apply HB; lia.
    + intros c Hc. unfold mneg. rewrite HA by lia. lra.
  - apply mmul_zero_r. intros k Hk. replace (j - _)%nat with 0%nat by lia. apply Hf0, Hk.
  - unfold mscale. rewrite mmul_zero_r; [lra|]. intros k Hk. apply HB; lia.
  - unfold mscale. rewrite mmul_zero_r; [lra|]. intros k Hk. apply HB; lia.
  - apply mmul_zero_l. intros k Hk. apply HA; lia.
  - unfold smul. replace (j - 0)%nat with 0%nat by lia. rewrite Hf0 by lia. lra.
Qed.

(** A Dormand-Prince step of a system whose derivative vanishes inside
    r x c leaves the state there as it is. *)
Lemma do_step_at_rest (sys : Odeint.system) r c buffers x t h :
  (forall V b s, meq r c (sys V b s) zeros) -> meq r c (Odeint.do_step sys buffers x t h) x.
Proof.
  intros Hsys i j Hi Hj. unfold Odeint.do_step. cbv zeta. unfold madd, smul.
  rewrite !(Hsys _ _ _ i j Hi Hj). unfold zeros. lra.
Qed.

Lemma steps_at_rest (sys : Odeint.system) r c t x x' :
  (forall V b s, meq r c (sys V b s) zeros) -> Odeint.steps sys t x x' -> meq r c x' x.
Proof.
  intros Hsys Hsteps. induction Hsteps as [t x | t h buffers x x' _ IH].
  - intros i j _ _. reflexivity.
  - intros i j Hi Hj. rewrite IH by done.
    exact (do_step_at_rest sys r c buffers x t h Hsys i j Hi Hj).
Qed.

(** The affine tuple read from a state that agrees with a freshly
    initialized one. *)
Lemma tuple_of_fresh V junk fr k :
  meq n n_V V (Main.initial_V model junk fr k) ->
  let A := block n n 0 1 V in
  meq n n A identity /\
  meq n m (mmul n A (block n m 0 (1 + n) V)) zeros /\
  meq n m (mmul n A (block n m 0 (1 + n + m) V)) zeros /\
  meq n 1 (mmul n A (block n 1 0 (1 + n + 2 * m) V)) zeros /\
  meq n 1 (mmul n A (block n 1 0 (2 + n + 2 * m) V)) zeros.
Proof.
  intros HV A. unfold Discretization.n_V_states in HV.
  assert (meq n n A identity) as HA.
  { intros i j Hi Hj. subst A. rewrite block_inside by done. rewrite HV by lia.
    rewrite <- (initial_V_stm model junk fr k i j Hi Hj).
    rewrite block_inside by done. reflexivity. }
  assert (forall c w i j, (1 + n <= c)%nat -> (c + w <= 3 + n + 2 * m)%nat ->
            (i < n)%nat -> (j < w)%nat -> block n w 0 c V i j = 0) as Hzero.
  { intros c w i j Hc Hw Hi Hj. rewrite block_inside by done. rewrite HV by lia.
    pose proof (initial_V_sensitivities model junk fr k i (c + j - (1 + n))%nat) as H.
    rewrite block_inside in H by lia.
    replace (1 + n + (c + j - (1 + n)))%nat with (c + j)%nat in H by lia.
    apply H; lia. }
  split; [exact HA|].
  split_and!; intros i j Hi Hj; unfold zeros; apply mmul_zero_r;
    intros r Hr; apply Hzero; lia.
Qed.

(** C7.  If the dynamics are static (f = 0 and both Jacobians 0 for all
    arguments) and the integration routine advances the state by
    Dormand-Prince steps, then for every interval width, every end time,
    every sigma and every pair of controls the integration of a freshly
    initialized augmented state gives A = identity and B = C = Sigma = z = 0;
    in particular the interval loop of [main] writes exactly that for every
    interval. *)
Theorem C7_static_dynamics_identity (it : nat) (fr : frame) (k : nat) :
  static model -> Odeint.runge_kutta integrate_adaptive ->
  (k < K - 1)%nat -> sized (K - 1) fr ->
  (forall self junk t0 t1 h,
     let V := integrate_adaptive (Discretization.call model inverse self)
                (Main.initial_V model junk fr k) t0 t1 h in
     let A := block n n 0 1 V in
     meq n n A identity /\
     meq n m (mmul n A (block n m 0 (1 + n) V)) zeros /\
     meq n m (mmul n A (block n m 0 (1 + n + m) V)) zeros /\
     meq n 1 (mmul n A (block n 1 0 (1 + n + 2 * m) V)) zeros /\
     meq n 1 (mmul n A (block n 1 0 (2 + n + 2 * m) V)) zeros) /\
  (let fr' := linearize it fr in
   meq n n (A_bar fr' !!! k) identity /\
   meq n m (B_bar fr' !!! k) zeros /\
   meq n m (C_bar fr' !!! k) zeros /\
   meq n 1 (Sigma_bar fr' !!! k) zeros /\
   meq n 1 (z_bar fr' !!! k) zeros).
Proof.
  intros Hst Hrk Hk Hsized.
  assert (forall self junk t0 t1 h,
            meq n n_V (integrate_adaptive (Discretization.call model inverse self)
                         (Main.initial_V model junk fr k) t0 t1 h)
                      (Main.initial_V model junk fr k)) as Hrest.
  { intros self junk t0 t1 h.
    apply (steps_at_rest (Discretization.call model inverse self) n n_V t0); [|apply Hrk].
    intros V b s. apply call_static, Hst. }
  split.
  - intros self junk t0 t1 h. apply (tuple_of_fresh _ junk fr k), Hrest.
  - destruct (linearize_prefix model inverse integrate_adaptive garbage K it fr (K - 1)
                Hsized (Nat.le_refl _)) as (_ & _ & _ & _ & Hw).
    destruct (Hw k Hk) as (HA & HB & HC & HS & Hz).
    cbv zeta. rewrite (list_lookup_total_correct _ _ _ HA),
      (list_lookup_total_correct _ _ _ HB), (list_lookup_total_correct _ _ _ HC),
      (list_lookup_total_correct _ _ _ HS), (list_lookup_total_correct _ _ _ Hz).
    apply (tuple_of_fresh _ (V_before garbage it k) fr k).
    unfold Main.integrate_interval. apply Hrest.
Qed.

End StaticFacts.

(** ** A singular state-transition matrix, in double arithmetic *)

Section NonFinite.

Import Binary64.
















End NonFinite.

(** ** The interval width *)

Section WidthFacts.

Variable model : Model.

(** C10.  With K >= 2 trajectory points the interval width handed to the
    integrator is dt = 1/(K-1) > 0, so the divisor of [t / dt] (in the
    control interpolation and in alpha) is not zero, t/dt runs from 0 to 1 as
    t runs from 0 to dt, and the initial step dt/10 is positive; for the K of
    the program, 50, dt is 1/49. *)
Theorem C10_interval_width_positive (K' : nat) (fr : frame) (k : nat) :
  (2 <= K')%nat ->
  let self := Main.discretizationODE model K' fr k in
  let dt := Discretization.dt self in
  dt = 1 / INR (K' - 1) /\ 0 < dt /\ dt <> 0 /\
  0 / dt = 0 /\ dt / dt = 1 /\
  (forall t, 0 <= t <= dt -> 0 <= t / dt <= 1) /\
  (10 : R) <> 0 /\ 0 < dt / 10 /\
  K = 50%nat /\ Main.dt K = 1 / 49.
Proof.
  intros HK self dt. subst dt self. cbn [Main.discretizationODE Discretization.dt].
  unfold Main.dt.
  assert (0 < INR (K' - 1)) as Hpos by (apply lt_0_INR; lia).
  assert (0 < 1 / INR (K' - 1)) as Hdt.
  { unfold Rdiv. rewrite Rmult_1_l. apply Rinv_0_lt_compat, Hpos. }
  set (d := 1 / INR (K' - 1)) in *.
  assert (0 < / d) as Hinv by (apply Rinv_0_lt_compat, Hdt).
  assert (d * / d = 1) as Hone by (apply Rinv_r; lra).
  split_and!.
  - reflexivity.
  - exact Hdt.
  - lra.
  - unfold Rdiv. lra.
  - exact Hone.
  - intros t [Ht0 Ht1]. unfold Rdiv. split; nra.
  - lra.
  - lra.
  - reflexivity.
  - unfold K. rewrite INR_IZR_INZ. reflexivity.
Qed.

End WidthFacts.

(** ** The instances at work *)

Section Instances.

Lemma n_steps_steps sys count x t h : Odeint.steps sys t x (Odeint.n_steps sys count x t h).
Proof.
  revert x t. induction count as [|count IH]; intros x t; simpl.
  - apply Odeint.steps_done.
  - apply (Odeint.steps_next sys t h (fun _ => zeros)). apply IH.
Qed.

Lemma integrate_n_steps_runge_kutta count : Odeint.runge_kutta (Odeint.integrate_n_steps count).
Proof. intros sys x t0 t1 h. apply n_steps_steps. Qed.

Lemma at_rest_static : static Example.at_rest.
Proof. intros x u. split_and!; intros i j _ _; reflexivity. Qed.

(** The derivative function on the one-state instance x' = u, with
    u_start = 0, u_end = 1, sigma = 2, dt = 1, at t = 1/2 and at the
    augmented state (x, Phi, ...) = (3, 1, 0, 0, 0, 0): the six entries of
    the single row. *)
Example call_on_integrator :
  let self := {| Discretization.u_t := zeros; Discretization.u_t1 := identity;
                 Discretization.sigma := 2; Discretization.dt := 1 |} in
  let V : matrix := fun i j => if Nat.eqb j 0 then 3 else if Nat.eqb j 1 then 1 else 0 in
  let dVdt := Discretization.call Example.integrator Example.inverse self V zeros (1 / 2) in
  dVdt 0%nat 0%nat = 1 /\ dVdt 0%nat 1%nat = 0 /\ dVdt 0%nat 2%nat = 1 /\
  dVdt 0%nat 3%nat = 1 /\ dVdt 0%nat 4%nat = 1 / 2 /\ dVdt 0%nat 5%nat = -1.
Proof.
  cbv [Discretization.call Example.integrator Example.inverse n_states n_inputs ode
       state_jacobian control_jacobian Discretization.u_t Discretization.u_t1
       Discretization.sigma Discretization.dt set_block block col mmul sum_n madd msub
       mneg smul mscale zeros identity Nat.add Nat.sub Nat.leb Nat.ltb Nat.eqb andb].
  split_and!; field.
Qed.

(** The time trust region at sigma0 = 2: sigma = 3 with Delta_sigma = 1 is
    on the boundary of the cone, sigma = 3 with Delta_sigma = 1/2 is
    outside. *)
Example trust_region_at_2 :
  let fr := {| X := zeros; U := zeros; sigma := 2; A_bar := []; B_bar := [];
               C_bar := []; Sigma_bar := []; z_bar := [] |} in
  let rho (D : R) : assignment :=
    fun v => if decide (name v = "sigma") then 3 else D in
  holds fr (rho 1) Main.sigma_trust_region /\ ~ holds fr (rho (1 / 2)) Main.sigma_trust_region.
Proof.
  intros fr rho.
  assert (forall D, rho D (Main.var "sigma" []) = 3) as Hs by reflexivity.
  assert (forall D, rho D (Main.var "Delta_sigma" []) = D) as HD by reflexivity.
  split.
  - apply eval_sigma_trust_region. rewrite Hs, HD. unfold norm2.
    apply sqrt_le_iff; [apply sum_squares_nonneg|]. simpl. lra.
  - intros Hc. apply eval_sigma_trust_region in Hc. rewrite Hs, HD in Hc.
    unfold norm2 in Hc. apply sqrt_le_iff in Hc; [|apply sum_squares_nonneg].
    simpl in Hc. lra.
Qed.

End Instances.

(** ** The theorems with hypotheses, at the instances *)

(** C2 at K = 3, interval 1 of the first pass, on the frame at the loop's
    entry of the x' = u instance, with a two-step integrator. *)
Lemma C2_at_three_points :
  let fr := locals (Main.before_loop Example.integrator Example.sevens 3) in
  let fr' := Main.linearize Example.integrator Example.inverse (Odeint.integrate_n_steps 2)
               Example.sevens 3 1 fr in
  (1 < 3 - 1)%nat /\ sized (3 - 1) fr /\
  meq 1 1 (block 1 1 0 1 (Main.initial_V Example.integrator (fun _ _ => 7) fr 1)) identity /\
  X fr' = X fr /\ sigma fr' = sigma fr.
Proof.
  intros fr fr'.
  assert (1 < 3 - 1)%nat as Hk by (simpl; lia).
  assert (sized (3 - 1) fr) as Hsized by (repeat split; reflexivity).
  pose proof (C2_fresh_state_and_affine_tuple Example.integrator Example.inverse
                (Odeint.integrate_n_steps 2) Example.sevens 3 1 fr 1 Hk Hsized) as H.
  cbv zeta in H. destruct H as (_ & _ & Hstm & _ & _ & _ & _ & _ & _ & HX & _ & Hs).
  split; [exact Hk|]. split; [exact Hsized|]. split; [exact Hstm|].
  split; [exact HX | exact Hs].
Defined.

(** C7 at K = 3, interval 1, for the instance at rest and a two-step
    integrator. *)
Lemma C7_at_rest :
  let fr := locals (Main.before_loop Example.at_rest Example.sevens 3) in
  let fr' := Main.linearize Example.at_rest Example.inverse (Odeint.integrate_n_steps 2)
               Example.sevens 3 1 fr in
  static Example.at_rest /\ Odeint.runge_kutta (Odeint.integrate_n_steps 2) /\
  (1 < 3 - 1)%nat /\ sized (3 - 1) fr /\
  meq 1 1 (A_bar fr' !!! 1%nat) identity /\
  meq 1 1 (B_bar fr' !!! 1%nat) zeros /\
  meq 1 1 (C_bar fr' !!! 1%nat) zeros /\
  meq 1 1 (Sigma_bar fr' !!! 1%nat) zeros /\
  meq 1 1 (z_bar fr' !!! 1%nat) zeros.
Proof.
  intros fr fr'.
  assert (1 < 3 - 1)%nat as Hk by (simpl; lia).
  assert (sized (3 - 1) fr) as Hsized by (repeat split; reflexivity).
  split; [exact at_rest_static|].
  split; [exact (integrate_n_steps_runge_kutta 2)|].
  split; [exact Hk|]. split; [exact Hsized|].
  exact (proj2 (C7_static_dynamics_identity Example.at_rest Example.inverse
                  (Odeint.integrate_n_steps 2) Example.sevens 3 1 fr 1
                  at_rest_static (integrate_n_steps_runge_kutta 2) Hk Hsized)).
Defined.

(** C10 at the K of the program. *)
Lemma C10_at_fifty_points :
  let fr := locals (Main.before_loop Example.integrator Example.sevens K) in
  (2 <= K)%nat /\
  0 < Discretization.dt (Main.discretizationODE Example.integrator K fr 0) /\
  Discretization.dt (Main.discretizationODE Example.integrator K fr 0) = 1 / INR (K - 1).
Proof.
  intros fr.
  assert (2 <= K)%nat as HK by (unfold K; lia).
  pose proof (C10_interval_width_positive Example.integrator K fr 0 HK) as H.
  cbv zeta in H. destruct H as (Heq & Hpos & _).
  split; [exact HK|]. split; [exact Hpos | exact Heq].
Defined.

(** ** Further properties of the setup and of the loop *)

Section Further.

Variable model : Model.
Variable inverse : matrix -> matrix.
Variable integrate_adaptive : Odeint.system -> matrix -> R -> R -> R -> matrix.
Variable garbage : uninitialized.
Variable K : nat.

Local Notation "'n'" := (n_states model).

Lemma nu_row_loop k rows (v : list AffineExpression) :
  for_range 0 rows (fun r v => v ++ [times (Constant 1) (Main.var "nu" [r; k])]) v
  = v ++ map (fun r => times (Constant 1) (Main.var "nu" [r; k])) (seq 0 rows).
Proof.
  induction rows as [|rows IH].
  - rewrite for_range_empty by lia. simpl. rewrite app_nil_r. reflexivity.
  - rewrite for_range_last by lia. rewrite IH, seq_S, map_app, app_assoc. reflexivity.
Qed.

Lemma map_eval_nu fr rho k rows :
  map (eval fr rho) (map (fun r => times (Constant 1) (Main.var "nu" [r; k])) (seq 0 rows))
  = map (fun r => rho (Main.var "nu" [r; k])) (seq 0 rows).
Proof.
  rewrite map_map. apply map_ext. intros r. simpl. lra.
Qed.

(** X1.  The virtual-control bound (lines 173-186): the vector under the
    norm stacks the (K-1) * n_states slack entries interval by interval, and
    the constraint says that their Euclidean norm is at most the value of
    the variable norm2_nu. *)
Theorem virtual_control_norm_constraint (fr : frame) (rho : assignment) :
  Main.virtual_control_vector model K
  = flat_map (fun k => map (fun r => times (Constant 1) (Main.var "nu" [r; k])) (seq 0 n))
             (seq 0 (K - 1)) /\
  length (Main.virtual_control_vector model K) = ((K - 1) * n)%nat /\
  (holds fr rho (norm2_le (Main.virtual_control_vector model K)
                          (times (Constant 1) (Main.var "norm2_nu" [])))
   <-> norm2 (flat_map (fun k => map (fun r => rho (Main.var "nu" [r; k])) (seq 0 n))
                       (seq 0 (K - 1)))
       <= rho (Main.var "norm2_nu" [])).
Proof.
  assert (Main.virtual_control_vector model K
          = flat_map (fun k => map (fun r => times (Constant 1) (Main.var "nu" [r; k]))
                                 (seq 0 n)) (seq 0 (K - 1))) as Hv.
  { unfold Main.virtual_control_vector. generalize (K - 1)%nat as N. intros N.
    induction N as [|N IH].
    - rewrite for_range_empty by lia. reflexivity.
    - rewrite for_range_last by lia. rewrite nu_row_loop, IH.
      rewrite seq_S, flat_map_app. simpl. rewrite app_nil_r. reflexivity. }
  split_and!.
  - exact Hv.
  - rewrite Hv. generalize (K - 1)%nat as N. intros N.
    induction N as [|N IH]; [reflexivity|].
    rewrite seq_S, flat_map_app, length_app, IH. simpl.
    rewrite length_app, length_map, length_seq. simpl. lia.
  - unfold norm2_le, holds. rewrite Hv.
    replace (eval fr rho (times (Constant 1) (Main.var "norm2_nu" [])))
      with (rho (Main.var "norm2_nu" [])) by (simpl; lra).
    assert (map (eval fr rho)
              (flat_map (fun k => map (fun r => times (Constant 1) (Main.var "nu" [r; k]))
                                     (seq 0 n)) (seq 0 (K - 1)))
            = flat_map (fun k => map (fun r => rho (Main.var "nu" [r; k])) (seq 0 n))
                       (seq 0 (K - 1))) as ->; [|reflexivity].
    generalize (K - 1)%nat as N. intros N. induction N as [|N IH]; [reflexivity|].
    rewrite seq_S, !flat_map_app, map_app, IH. simpl.
    rewrite !app_nil_r, map_eval_nu. reflexivity.
Qed.

(** X2.  Single writer: the interval loop reads the reference trajectory and
    sigma and never writes them, whatever the frame; reading the solution
    back never touches the five coefficient arrays. *)
Theorem reference_written_only_by_read_back (it : nat) (fr : frame) :
  let fr' := Main.linearize model inverse integrate_adaptive garbage K it fr in
  X fr' = X fr /\ U fr' = U fr /\ sigma fr' = sigma fr /\
  (forall s Xi Ui si a,
     array_of (Main.read_solution model K s Xi Ui si fr) a = array_of fr a).
Proof.
  intros fr'. subst fr'. unfold Main.linearize.
  assert (let f := for_range 0 (K - 1)
                     (Main.linearize_interval model inverse integrate_adaptive garbage K it) fr in
          X f = X fr /\ U f = U fr /\ sigma f = sigma fr) as (HX & HU & Hs).
  { apply (for_range_invariant (fun _ acc =>
             X acc = X fr /\ U acc = U fr /\ sigma acc = sigma fr)); [lia | done |].
    intros i acc _ H. exact H. }
  split_and!; try done.
  intros s Xi Ui si a.
  destruct (read_solution_frame model K s Xi Ui si fr) as (_ & _ & _ & Harr). apply Harr.
Qed.

End Further.

(** ** What the derivative function reads *)

Section DerivativeReads.

Variable model : Model.
Variable inverse : matrix -> matrix.

Local Notation "'n'" := (n_states model).
Local Notation "'m'" := (n_inputs model).
Local Abbreviation call := (Discretization.call model inverse).

Lemma block_agree r c i0 j0 (V V' : matrix) :
  (forall i j, (i < r)%nat -> (j < c)%nat ->
     V (i0 + i)%nat (j0 + j)%nat = V' (i0 + i)%nat (j0 + j)%nat) ->
  block r c i0 j0 V = block r c i0 j0 V'.
Proof.
  intros H. apply functional_extensionality. intros i.
  apply functional_extensionality. intros j. unfold block.
  destruct (Nat.ltb_spec i r), (Nat.ltb_spec j c); simpl; auto.
Qed.

(** X3.  The derivative function reads the augmented state only through
    its state column and its STM block: two states that agree on columns
    0..n_states give the same derivative.  The four sensitivity blocks are
    integrated, never fed back. *)
Theorem derivative_ignores_sensitivities
    (self : Discretization.DiscretizationODE) (V V' dVdt : matrix) (t : R) :
  meq n (1 + n) V V' -> call self V dVdt t = call self V' dVdt t.
Proof.
  intros Hagree. unfold Discretization.call. cbv zeta. unfold col.
  rewrite (block_agree n 1 0 0 V V') by (intros i j Hi Hj; apply Hagree; lia).
  rewrite (block_agree n n 0 1 V V') by (intros i j Hi Hj; apply Hagree; lia).
  reflexivity.
Qed.

(** The held control of line 54 at the two ends of the interval. *)
Lemma hold_at_start (a b : matrix) (d : R) : (a + 0 / d \* (b - a))%M = a.
Proof.
  apply functional_extensionality. intros i. apply functional_extensionality. intros j.
  unfold madd, smul, msub, Rdiv. lra.
Qed.

Lemma hold_at_end (a b : matrix) (d : R) : d <> 0 -> (a + d / d \* (b - a))%M = b.
Proof.
  intros Hd. apply functional_extensionality. intros i.
  apply functional_extensionality. intros j.
  unfold madd, smul, msub, Rdiv. rewrite Rinv_r by exact Hd. lra.
Qed.

(** X4.  First-order hold, at the ends: at t = 0 the derivative is the one
    of the control u_t alone (u_t1 has no influence), and at t = dt, for
    dt <> 0, it is the one of u_t1 alone (u_t has no influence). *)
Theorem hold_endpoints (self : Discretization.DiscretizationODE) (V dVdt other : matrix) :
  Discretization.dt self <> 0 ->
  call self V dVdt 0
  = call {| Discretization.u_t := Discretization.u_t self;
            Discretization.u_t1 := other;
            Discretization.sigma := Discretization.sigma self;
            Discretization.dt := Discretization.dt self |} V dVdt 0 /\
  call self V dVdt (Discretization.dt self)
  = call {| Discretization.u_t := other;
            Discretization.u_t1 := Discretization.u_t1 self;
            Discretization.sigma := Discretization.sigma self;
            Discretization.dt := Discretization.dt self |} V dVdt (Discretization.dt self).
Proof.
  intros Hdt. split.
  - unfold Discretization.call. cbv zeta.
    cbn [Discretization.u_t Discretization.u_t1 Discretization.sigma Discretization.dt].
    rewrite !hold_at_start. reflexivity.
  - unfold Discretization.call. cbv zeta.
    cbn [Discretization.u_t Discretization.u_t1 Discretization.sigma Discretization.dt].
    rewrite !(hold_at_end _ _ _ Hdt). reflexivity.
Qed.



End DerivativeReads.

(** ** Uninitialized storage and stale coefficients *)

Section Determined.

Variable model : Model.
Variable inverse : matrix -> matrix.
Variable integrate_adaptive : Odeint.system -> matrix -> R -> R -> R -> matrix.
Variable ecos : Ecos.
Variable K : nat.

Local Notation "'n'" := (n_states model).
Local Notation "'m'" := (n_inputs model).
Local Abbreviation linearize := (Main.linearize model inverse integrate_adaptive).
Local Abbreviation integrate_interval :=
  (Main.integrate_interval model inverse integrate_adaptive K).
Local Abbreviation run := (Main.run model inverse integrate_adaptive ecos).
Local Abbreviation setup := (Main.solver_setup model K).

Lemma frame_eq (a b : frame) :
  X a = X b -> U a = U b -> sigma a = sigma b ->
  (forall arr, array_of a arr = array_of b arr) -> a = b.
Proof.
  intros HX HU Hs Harr.
  pose proof (Harr InA_bar) as HA. pose proof (Harr InB_bar) as HB.
  pose proof (Harr InC_bar) as HC. pose proof (Harr InSigma_bar) as HS.
  pose proof (Harr Inz_bar) as Hz.
  destruct a, b. simpl in HX, HU, Hs, HA, HB, HC, HS, Hz. congruence.
Qed.

(** What [V] held at its declaration does not reach the integrator. *)
Lemma integrate_interval_junk junk junk' fr k :
  integrate_interval junk fr k = integrate_interval junk' fr k.
Proof. reflexivity. Qed.

(** The interval loop as a function of the reference alone. *)
Lemma linearize_determined g1 g2 it1 it2 fr1 fr2 :
  sized (K - 1) fr1 -> sized (K - 1) fr2 ->
  X fr1 = X fr2 -> U fr1 = U fr2 -> sigma fr1 = sigma fr2 ->
  linearize g1 K it1 fr1 = linearize g2 K it2 fr2.
Proof.
  intros Hs1 Hs2 HX HU Hsig.
  destruct (linearize_prefix model inverse integrate_adaptive g1 K it1 fr1 (K - 1)
              Hs1 (Nat.le_refl _)) as (HX1 & HU1 & Hsig1 & Hsz1 & Hw1).
  destruct (linearize_prefix model inverse integrate_adaptive g2 K it2 fr2 (K - 1)
              Hs2 (Nat.le_refl _)) as (HX2 & HU2 & Hsig2 & Hsz2 & Hw2).
  fold (linearize g1 K it1 fr1) in HX1, HU1, Hsig1, Hsz1, Hw1.
  fold (linearize g2 K it2 fr2) in HX2, HU2, Hsig2, Hsz2, Hw2.
  assert (forall k, integrate_interval (V_before g2 it2 k) fr2 k
                    = integrate_interval (V_before g1 it1 k) fr1 k) as HV.
  { intros k. rewrite (integrate_interval_junk _ (V_before g1 it1 k)).
    apply integrate_interval_reads; congruence. }
  destruct Hsz1 as (LA1 & LB1 & LC1 & LS1 & Lz1).
  destruct Hsz2 as (LA2 & LB2 & LC2 & LS2 & Lz2).
  apply frame_eq; try congruence.
  intros arr. apply list_eq. intros i.
  destruct (decide (i < K - 1)%nat) as [Hi|Hi].
  - destruct (Hw1 i Hi) as (a1 & b1 & c1 & s1 & z1).
    destruct (Hw2 i Hi) as (a2 & b2 & c2 & s2 & z2).
    rewrite HV in a2, b2, c2, s2, z2.
    destruct arr; simpl; congruence.
  - rewrite !lookup_ge_None_2; [done | |]; destruct arr; simpl; lia.
Qed.

(** X6.  The interval loop overwrites all K-1 entries of the five
    coefficient arrays, and what it writes is a function of the reference
    (X, U, sigma) alone: two frames with the same reference give the same
    frame after the loop, whatever their arrays held before, whatever [V]
    held at its declaration and in whichever pass the loop runs. *)
Theorem coefficients_determined_by_reference g1 g2 it1 it2 fr1 fr2 :
  sized (K - 1) fr1 -> sized (K - 1) fr2 ->
  X fr1 = X fr2 -> U fr1 = U fr2 -> sigma fr1 = sigma fr2 ->
  linearize g1 K it1 fr1 = linearize g2 K it2 fr2 /\
  sized (K - 1) (linearize g1 K it1 fr1).
Proof.
  intros Hs1 Hs2 HX HU Hsig. split.
  - apply linearize_determined; assumption.
  - destruct (linearize_keeps model inverse integrate_adaptive g1 K it1 fr1 Hs1)
      as (_ & _ & _ & Hsz). exact Hsz.
Qed.

Lemma iteration_determined g1 g2 Xi Ui si it st1 st2 :
  sized (K - 1) (locals st1) -> sized (K - 1) (locals st2) ->
  X (locals st1) = X (locals st2) -> U (locals st1) = U (locals st2) ->
  sigma (locals st1) = sigma (locals st2) ->
  solver st1 = solver st2 -> console st1 = console st2 ->
  Main.iteration model inverse integrate_adaptive ecos g1 K Xi Ui si it st1
  = Main.iteration model inverse integrate_adaptive ecos g2 K Xi Ui si it st2.
Proof.
  intros Hs1 Hs2 HX HU Hsig Hsolver Hconsole. unfold Main.iteration.
  rewrite (linearize_determined g1 g2 it it (locals st1) (locals st2)) by assumption.
  rewrite Hsolver, Hconsole. reflexivity.
Qed.

(** X7.  No read of uninitialized storage reaches the result: the state of
    the program after any number of passes (at least one) is the same
    whatever the five coefficient arrays and the local [V] held before they
    were first written; before the first pass the solver is the same too.
    ([X] and [U] are handed to the model's [initialize], which may read
    them.) *)
Theorem program_ignores_uninitialized_storage
    (Xb Ub : matrix) (a1 a2 : coefficient_array -> nat -> matrix)
    (V1 V2 : nat -> nat -> matrix) (count : nat) :
  let g1 := {| X_before := Xb; U_before := Ub; array_before := a1; V_before := V1 |} in
  let g2 := {| X_before := Xb; U_before := Ub; array_before := a2; V_before := V2 |} in
  solver (run g1 K 0) = solver (run g2 K 0) /\
  run g1 K (Datatypes.S count) = run g2 K (Datatypes.S count).
Proof.
  intros g1 g2. split.
  - rewrite !run_0. reflexivity.
  - induction count as [|count IH].
    + rewrite !run_S, !run_0.
      apply iteration_determined; try reflexivity.
      * rewrite <- (run_0 model inverse integrate_adaptive ecos g1 K). apply run_sized.
      * rewrite <- (run_0 model inverse integrate_adaptive ecos g2 K). apply run_sized.
    + rewrite (run_S model inverse integrate_adaptive ecos g1 K (Datatypes.S count)).
      rewrite (run_S model inverse integrate_adaptive ecos g2 K (Datatypes.S count)).
      apply iteration_determined; try (rewrite IH; reflexivity); apply run_sized.
Qed.

(** X8.  The indices cached before the loop (lines 224-230) stay the
    solver's own: in every pass the solver would still answer each index
    query as it did after the setup, so what the read-back stores in X(i,k),
    U(i,k) and sigma are the solver's values of the variables X[i,k], U[i,k]
    and sigma. *)
Theorem cached_indices_stay_valid (garbage : uninitialized) (count : nat) :
  let s := solver (run garbage K (Datatypes.S count)) in
  let fr := locals (run garbage K (Datatypes.S count)) in
  (forall nm indices,
     get_tensor_variable_index ecos s nm indices
     = get_tensor_variable_index ecos setup nm indices) /\
  (forall i k, (i < n)%nat -> (k < K)%nat ->
     X fr i k = get_solution_value s (get_tensor_variable_index ecos s "X" [i; k])) /\
  (forall i k, (i < m)%nat -> (k < K)%nat ->
     U fr i k = get_solution_value s (get_tensor_variable_index ecos s "U" [i; k])) /\
  sigma fr = get_solution_value s (get_tensor_variable_index ecos s "sigma" []).
Proof.
  intros s fr.
  assert (forall nm indices,
            get_tensor_variable_index ecos s nm indices
            = get_tensor_variable_index ecos setup nm indices) as Hindex.
  { intros nm indices. unfold get_tensor_variable_index. subst s.
    destruct (run_solver model inverse integrate_adaptive ecos garbage K (Datatypes.S count))
      as (-> & _). reflexivity. }
  split; [exact Hindex|]. subst s fr.
  split_and!.
  - intros i k Hi Hk. rewrite Hindex, run_S. unfold Main.iteration. cbn [locals solver].
    match goal with |- context [Main.read_solution _ _ ?s ?Xi ?Ui ?si ?fr] =>
      destruct (read_solution_frame model K s Xi Ui si fr) as (HX & _) end.
    rewrite HX.
    destruct (Nat.ltb_spec i n), (Nat.ltb_spec k K); simpl; try lia. reflexivity.
  - intros i k Hi Hk. rewrite Hindex, run_S. unfold Main.iteration. cbn [locals solver].
    match goal with |- context [Main.read_solution _ _ ?s ?Xi ?Ui ?si ?fr] =>
      destruct (read_solution_frame model K s Xi Ui si fr) as (_ & HU & _) end.
    rewrite HU.
    destruct (Nat.ltb_spec i m), (Nat.ltb_spec k K); simpl; try lia. reflexivity.
  - rewrite Hindex, run_S. unfold Main.iteration. cbn [locals solver].
    match goal with |- context [Main.read_solution _ _ ?s ?Xi ?Ui ?si ?fr] =>
      destruct (read_solution_frame model K s Xi Ui si fr) as (_ & _ & Hs & _) end.
    rewrite Hs. reflexivity.
Qed.

(** X9.  No stale coefficient: the problem solved in pass count+1 is the
    compiled one read at the frame its own interval loop left, and there
    each pointer parameter of the dynamics equality of interval k yields the
    entry computed in this pass from the reference adopted in pass count:
    A = Phi, B = A (control_start block), C = A (control_end block),
    Sigma = A (sigma block), z = A (bias block) of the state integrated from
    that reference. *)
Theorem coefficients_fresh_at_every_solve (garbage : uninitialized) (count k r c : nat) :
  (k < K - 1)%nat ->
  let fr := locals (run garbage K count) in
  let fr' := linearize garbage K (Datatypes.S count) fr in
  let V := integrate_interval (V_before garbage (Datatypes.S count) k) fr k in
  let A := block n n 0 1 V in
  solved (solver (run garbage K (Datatypes.S count)))
  = numeric_problem fr' (problem setup) :: solved (solver (run garbage K count)) /\
  value fr' (Main.param InA_bar k r c) = A r c /\
  value fr' (Main.param InB_bar k r c) = mmul n A (block n m 0 (1 + n) V) r c /\
  value fr' (Main.param InC_bar k r c) = mmul n A (block n m 0 (1 + n + m) V) r c /\
  value fr' (Main.param InSigma_bar k r 0) = mmul n A (block n 1 0 (1 + n + 2 * m) V) r 0%nat /\
  value fr' (Main.param Inz_bar k r 0) = mmul n A (block n 1 0 (2 + n + 2 * m) V) r 0%nat.
Proof.
  intros Hk fr fr' V A.
  destruct (linearize_prefix model inverse integrate_adaptive garbage K (Datatypes.S count)
              fr (K - 1) (run_sized model inverse integrate_adaptive ecos garbage K count)
              (Nat.le_refl _)) as (_ & _ & _ & _ & Hw).
  destruct (Hw k Hk) as (HA & HB & HC & HS & Hz).
  split; [apply run_solved|].
  unfold Main.param, value, deref. cbn [into interval row column array_of].
  subst fr'. unfold Main.linearize.
  rewrite (list_lookup_total_correct _ _ _ HA), (list_lookup_total_correct _ _ _ HB),
    (list_lookup_total_correct _ _ _ HC), (list_lookup_total_correct _ _ _ HS),
    (list_lookup_total_correct _ _ _ Hz).
  split_and!; reflexivity.
Qed.

End Determined.

(** ** What the cone constraints force *)

Section ConeFacts.

Variable model : Model.
Variable inverse : matrix -> matrix.
Variable integrate_adaptive : Odeint.system -> matrix -> R -> R -> R -> matrix.
Variable garbage : uninitialized.
Variable K : nat.

Local Notation "'n'" := (n_states model).
Local Notation "'m'" := (n_inputs model).
Local Abbreviation linearize := (Main.linearize model inverse integrate_adaptive garbage K).

Lemma sigma_trust_region_quadratic (fr : frame) (rho : assignment) :
  holds fr rho Main.sigma_trust_region
  <-> (rho (Main.var "sigma" []) - sigma fr) * (rho (Main.var "sigma" []) - sigma fr)
      <= rho (Main.var "Delta_sigma" []).
Proof.
  rewrite eval_sigma_trust_region. cbv zeta. unfold norm2.
  rewrite sqrt_le_iff by apply sum_squares_nonneg. simpl. split.
  - intros [Hb Hle]. nra.
  - intros Hq. split; nra.
Qed.

(** X10.  What the time trust region admits: the constraint of lines
    203-209 holds exactly when Delta_sigma is not negative and the total
    time lies within sqrt(Delta_sigma) of the reference sigma. *)
Theorem trust_region_interval (fr : frame) (rho : assignment) :
  holds fr rho Main.sigma_trust_region
  <-> 0 <= rho (Main.var "Delta_sigma" []) /\
      sigma fr - sqrt (rho (Main.var "Delta_sigma" []))
        <= rho (Main.var "sigma" [])
        <= sigma fr + sqrt (rho (Main.var "Delta_sigma" [])).
Proof.
  rewrite sigma_trust_region_quadratic.
  set (s := rho (Main.var "sigma" [])). set (D := rho (Main.var "Delta_sigma" [])).
  set (s0 := sigma fr). split.
  - intros Hq. pose proof (Rle_0_sqr (s - s0)) as Hsqr. unfold Rsqr in Hsqr.
    assert (0 <= D) as HD by lra. split; [exact HD|].
    pose proof (sqrt_pos D) as Hpos. pose proof (sqrt_sqrt D HD) as Hsq.
    set (q := sqrt D) in Hpos, Hsq |- *. split.
    + destruct (Rle_lt_dec (s0 - q) s) as [Hle|Hlt]; [exact Hle|]. exfalso.
      assert (0 < (s0 - s - q) * (s0 - s + q)) by (apply Rmult_lt_0_compat; lra). nra.
    + destruct (Rle_lt_dec s (s0 + q)) as [Hle|Hlt]; [exact Hle|]. exfalso.
      assert (0 < (s - s0 - q) * (s - s0 + q)) by (apply Rmult_lt_0_compat; lra). nra.
  - intros (HD & Hlo & Hhi).
    pose proof (sqrt_pos D) as Hpos. pose proof (sqrt_sqrt D HD) as Hsq. nra.
Qed.

Lemma sum_squares_zero (l : list R) : sum_squares l = 0 -> forall x, In x l -> x = 0.
Proof.
  induction l as [|y l IH]; intros Hsum x Hin; [destruct Hin|].
  simpl in Hsum. pose proof (sum_squares_nonneg l) as Hl.
  assert (y * y = 0 /\ sum_squares l = 0) as [Hy Hrest] by (split; nra).
  destruct Hin as [<-|Hin]; [nra | apply IH; assumption].
Qed.

Lemma norm2_nonpositive (l : list R) : norm2 l <= 0 -> forall x, In x l -> x = 0.
Proof.
  intros Hle. apply sum_squares_zero. unfold norm2 in Hle.
  apply sqrt_le_iff in Hle; [|apply sum_squares_nonneg].
  pose proof (sum_squares_nonneg l). lra.
Qed.

Lemma virtual_control_values (fr : frame) (rho : assignment) :
  map (eval fr rho) (Main.virtual_control_vector model K)
  = flat_map (fun k => map (fun r => rho (Main.var "nu" [r; k])) (seq 0 n)) (seq 0 (K - 1)).
Proof.
  unfold Main.virtual_control_vector. generalize (K - 1)%nat as N. intros N.
  induction N as [|N IH].
  - rewrite for_range_empty by lia. reflexivity.
  - rewrite for_range_last by lia. rewrite nu_row_loop, map_app, IH, map_eval_nu.
    rewrite seq_S, flat_map_app. simpl. rewrite app_nil_r. reflexivity.
Qed.

(** X11.  A vanishing bound leaves no slack: if the virtual-control
    constraint of line 182 holds and norm2_nu has the value 0, then every
    slack entry nu(r,k), k < K-1, r < n_states, is 0, and the dynamics
    equality of interval k, row r then holds exactly when
    x(k+1)_r = (A_k x(k) + B_k u(k) + C_k u(k+1) + Sigma_k sigma + z_k)_r. *)
Theorem no_bound_no_slack (fr : frame) (rho : assignment) (k r : nat) :
  holds fr rho (norm2_le (Main.virtual_control_vector model K)
                         (times (Constant 1) (Main.var "norm2_nu" []))) ->
  rho (Main.var "norm2_nu" []) = 0 ->
  (k < K - 1)%nat -> (r < n)%nat ->
  rho (Main.var "nu" [r; k]) = 0 /\
  (holds fr rho (eq_zero (Main.dynamics_equation model k r)) <->
   rho (Main.var "X" [r; (k + 1)%nat])
   = sum_n n (fun c => (A_bar fr !!! k) r c * rho (Main.var "X" [c; k]))
     + sum_n m (fun c => (B_bar fr !!! k) r c * rho (Main.var "U" [c; k]))
     + sum_n m (fun c => (C_bar fr !!! k) r c * rho (Main.var "U" [c; (k + 1)%nat]))
     + (Sigma_bar fr !!! k) r 0%nat * rho (Main.var "sigma" [])
     + (z_bar fr !!! k) r 0%nat).
Proof.
  intros Hholds Hbound Hk Hr.
  assert (rho (Main.var "nu" [r; k]) = 0) as Hnu.
  { unfold norm2_le, holds in Hholds. rewrite virtual_control_values in Hholds.
    replace (eval fr rho (times (Constant 1) (Main.var "norm2_nu" [])))
      with (rho (Main.var "norm2_nu" [])) in Hholds by (simpl; lra).
    rewrite Hbound in Hholds. apply (norm2_nonpositive _ Hholds).
    apply in_flat_map. exists k. split; [apply in_seq; lia|].
    apply in_map_iff. exists r. split; [reflexivity | apply in_seq; lia]. }
  split; [exact Hnu|].
  unfold holds, eq_zero. rewrite eval_dynamics_equation, Hnu. split; intros H; lra.
Qed.

(** With static dynamics the interval loop writes A = identity and zeros
    for the other four entries. *)
Lemma linearize_static it fr k :
  static model -> Odeint.runge_kutta integrate_adaptive ->
  (k < K - 1)%nat -> sized (K - 1) fr ->
  let fr' := linearize it fr in
  meq n n (A_bar fr' !!! k) identity /\
  meq n m (B_bar fr' !!! k) zeros /\
  meq n m (C_bar fr' !!! k) zeros /\
  meq n 1 (Sigma_bar fr' !!! k) zeros /\
  meq n 1 (z_bar fr' !!! k) zeros.
Proof.
  intros Hst Hrk Hk Hsized.
  destruct (linearize_prefix model inverse integrate_adaptive garbage K it fr (K - 1)
              Hsized (Nat.le_refl _)) as (_ & _ & _ & _ & Hw).
  destruct (Hw k Hk) as (HA & HB & HC & HS & Hz).
  cbv zeta. unfold Main.linearize.
  rewrite (list_lookup_total_correct _ _ _ HA),
    (list_lookup_total_correct _ _ _ HB), (list_lookup_total_correct _ _ _ HC),
    (list_lookup_total_correct _ _ _ HS), (list_lookup_total_correct _ _ _ Hz).
  apply (tuple_of_fresh model _ (V_before garbage it k) fr k).
  unfold Main.integrate_interval.
  apply (steps_at_rest
           (Discretization.call model inverse (Main.discretizationODE model K fr k))
           n (Discretization.n_V_states model) 0); [|apply Hrk].
  intros V b s. apply call_static, Hst.
Qed.

(** X12.  Static dynamics through to the subproblem: if f and both
    Jacobians vanish and the integrator advances by Dormand-Prince steps,
    then at the frame the interval loop leaves, the dynamics equality of
    interval k and state row r says x(k+1)_r = x(k)_r + nu(k)_r, whatever
    the controls and sigma. *)
Theorem static_dynamics_constraint (it : nat) (fr : frame) (rho : assignment) (k r : nat) :
  static model -> Odeint.runge_kutta integrate_adaptive ->
  (k < K - 1)%nat -> (r < n)%nat -> sized (K - 1) fr ->
  holds (linearize it fr) rho (eq_zero (Main.dynamics_equation model k r))
  <-> rho (Main.var "X" [r; (k + 1)%nat])
      = rho (Main.var "X" [r; k]) + rho (Main.var "nu" [r; k]).
Proof.
  intros Hst Hrk Hk Hr Hsized.
  destruct (linearize_static it fr k Hst Hrk Hk Hsized) as (HA & HB & HC & HS & Hz).
  assert (forall c, (c < n)%nat -> (A_bar (linearize it fr) !!! k) r c = identity r c) as EA
    by (intros c Hc; exact (HA r c Hr Hc)).
  assert (forall c, (c < m)%nat -> (B_bar (linearize it fr) !!! k) r c = 0) as EB
    by (intros c Hc; exact (HB r c Hr Hc)).
  assert (forall c, (c < m)%nat -> (C_bar (linearize it fr) !!! k) r c = 0) as EC
    by (intros c Hc; exact (HC r c Hr Hc)).
  assert ((Sigma_bar (linearize it fr) !!! k) r 0%nat = 0) as ES
    by exact (HS r 0%nat Hr Nat.lt_0_1).
  assert ((z_bar (linearize it fr) !!! k) r 0%nat = 0) as Ez
    by exact (Hz r 0%nat Hr Nat.lt_0_1).
  unfold holds, eq_zero. rewrite eval_dynamics_equation.
  rewrite (sum_n_single n _ r Hr); cycle 1.
  { intros c Hc Hne. rewrite EA by done. unfold identity.
    destruct (Nat.eqb_spec r c); [congruence | lra]. }
  cbv beta. rewrite (EA r Hr). unfold identity at 1. rewrite Nat.eqb_refl.
  rewrite (sum_n_zero m
             (fun c => (B_bar (linearize it fr) !!! k) r c * rho (Main.var "U" [c; k]))); cycle 1.
  { intros c Hc. rewrite EB by done. lra. }
  rewrite (sum_n_zero m
             (fun c => (C_bar (linearize it fr) !!! k) r c
                       * rho (Main.var "U" [c; (k + 1)%nat]))); cycle 1.
  { intros c Hc. rewrite EC by done. lra. }
  rewrite ES, Ez. split; intros H; lra.
Qed.

End ConeFacts.

(** ** Intervals are independent of one another *)

Section Locality.

Variable model : Model.
Variable inverse : matrix -> matrix.
Variable integrate_adaptive : Odeint.system -> matrix -> R -> R -> R -> matrix.
Variable K : nat.

Local Notation "'n'" := (n_states model).
Local Notation "'m'" := (n_inputs model).
Local Abbreviation linearize := (Main.linearize model inverse integrate_adaptive).
Local Abbreviation integrate_interval :=
  (Main.integrate_interval model inverse integrate_adaptive K).

Lemma col_agree r k (M M' : matrix) :
  (forall i, (i < r)%nat -> M i k = M' i k) -> col r k M = col r k M'.
Proof.
  intros H. unfold col. apply block_agree. intros i j Hi Hj.
  replace (k + j)%nat with k by lia. apply H, Hi.
Qed.

Lemma integrate_interval_local junk1 junk2 fr1 fr2 k :
  (forall i, (i < n)%nat -> X fr1 i k = X fr2 i k) ->
  (forall i, (i < m)%nat -> U fr1 i k = U fr2 i k) ->
  (forall i, (i < m)%nat -> U fr1 i (k + 1)%nat = U fr2 i (k + 1)%nat) ->
  sigma fr1 = sigma fr2 ->
  integrate_interval junk1 fr1 k = integrate_interval junk2 fr2 k.
Proof.
  intros HX HU HU1 Hsig.
  unfold Main.integrate_interval, Main.initial_V, Main.discretizationODE. cbv zeta.
  rewrite (col_agree n k (X fr1) (X fr2) HX), (col_agree m k (U fr1) (U fr2) HU),
    (col_agree m (k + 1) (U fr1) (U fr2) HU1), Hsig.
  reflexivity.
Qed.

(** X13.  The intervals do not depend on one another: what the interval
    loop writes for interval k is determined by column k of X, columns k and
    k+1 of U and sigma.  Two frames that agree there get the same five
    entries for interval k, whatever the rest of their trajectories, the
    pass and the uninitialized storage. *)
Theorem interval_reads_its_own_nodes g1 g2 it1 it2 fr1 fr2 k :
  (k < K - 1)%nat -> sized (K - 1) fr1 -> sized (K - 1) fr2 ->
  (forall i, (i < n)%nat -> X fr1 i k = X fr2 i k) ->
  (forall i, (i < m)%nat -> U fr1 i k = U fr2 i k) ->
  (forall i, (i < m)%nat -> U fr1 i (k + 1)%nat = U fr2 i (k + 1)%nat) ->
  sigma fr1 = sigma fr2 ->
  forall arr,
    array_of (linearize g1 K it1 fr1) arr !! k = array_of (linearize g2 K it2 fr2) arr !! k.
Proof.
  intros Hk Hs1 Hs2 HX HU HU1 Hsig arr.
  destruct (linearize_prefix model inverse integrate_adaptive g1 K it1 fr1 (K - 1)
              Hs1 (Nat.le_refl _)) as (_ & _ & _ & _ & Hw1).
  destruct (linearize_prefix model inverse integrate_adaptive g2 K it2 fr2 (K - 1)
              Hs2 (Nat.le_refl _)) as (_ & _ & _ & _ & Hw2).
  destruct (Hw1 k Hk) as (a1 & b1 & c1 & s1 & z1).
  destruct (Hw2 k Hk) as (a2 & b2 & c2 & s2 & z2).
  rewrite <- (integrate_interval_local (V_before g1 it1 k) (V_before g2 it2 k) fr1 fr2 k
                HX HU HU1 Hsig) in a2, b2, c2, s2, z2.
  unfold Main.linearize. destruct arr; simpl; congruence.
Qed.

End Locality.

(** ** The further theorems with hypotheses, at the instances *)

(** X3 for x' = u: two states that differ in every sensitivity column. *)
Lemma X3_at_two_states :
  let self := {| Discretization.u_t := zeros; Discretization.u_t1 := identity;
                 Discretization.sigma := 2; Discretization.dt := 1 |} in
  let V : matrix := zeros in
  let V' : matrix := fun i j => if (2 <=? j)%nat then 5 else 0 in
  meq (n_states Example.integrator) (1 + n_states Example.integrator) V V' /\
  Discretization.call Example.integrator Example.inverse self V zeros (1 / 2)
  = Discretization.call Example.integrator Example.inverse self V' zeros (1 / 2).
Proof.
  intros self V V'.
  assert (meq (n_states Example.integrator) (1 + n_states Example.integrator) V V') as H.
  { intros i j Hi Hj. simpl in Hj. subst V V'. unfold zeros.
    destruct (Nat.leb_spec 2 j); [lia | reflexivity]. }
  split; [exact H|].
  exact (derivative_ignores_sensitivities Example.integrator Example.inverse self V V'
           zeros (1 / 2) H).
Defined.

(** X4 and X5 at dt = 1. *)
Lemma X4_at_unit_width :
  let self := {| Discretization.u_t := zeros; Discretization.u_t1 := identity;
                 Discretization.sigma := 2; Discretization.dt := 1 |} in
  Discretization.dt self <> 0 /\
  Discretization.call Example.integrator Example.inverse self zeros zeros 0
  = Discretization.call Example.integrator Example.inverse
      {| Discretization.u_t := zeros; Discretization.u_t1 := zeros;
         Discretization.sigma := 2; Discretization.dt := 1 |} zeros zeros 0.
Proof.
  intros self.
  assert (Discretization.dt self <> 0) as H by (simpl; lra).
  split; [exact H|].
  exact (proj1 (hold_endpoints Example.integrator Example.inverse self zeros zeros zeros H)).
Defined.


(** X6 at K = 3: two frames at the loop's entry that differ in what their
    arrays and [V] held, linearized in different passes. *)
Lemma X6_at_three_points :
  let other := {| X_before := fun _ _ => 7; U_before := fun _ _ => 7;
                  array_before := fun _ _ _ _ => 0; V_before := fun _ _ _ _ => 1 |} in
  let fr1 := locals (Main.before_loop Example.integrator Example.sevens 3) in
  let fr2 := locals (Main.before_loop Example.integrator other 3) in
  sized (3 - 1) fr1 /\ sized (3 - 1) fr2 /\
  X fr1 = X fr2 /\ U fr1 = U fr2 /\ sigma fr1 = sigma fr2 /\
  Main.linearize Example.integrator Example.inverse (Odeint.integrate_n_steps 2)
    Example.sevens 3 1 fr1
  = Main.linearize Example.integrator Example.inverse (Odeint.integrate_n_steps 2)
      other 3 2 fr2.
Proof.
  intros other fr1 fr2.
  assert (sized (3 - 1) fr1) as H1 by (repeat split; reflexivity).
  assert (sized (3 - 1) fr2) as H2 by (repeat split; reflexivity).
  split; [exact H1|]. split; [exact H2|].
  split; [reflexivity|]. split; [reflexivity|]. split; [reflexivity|].
  exact (proj1 (coefficients_determined_by_reference Example.integrator Example.inverse
                  (Odeint.integrate_n_steps 2) 3 Example.sevens other 1 2 fr1 fr2
                  H1 H2 eq_refl eq_refl eq_refl)).
Defined.

(** X9 at K = 3, first pass, interval 1. *)
Lemma X9_at_three_points :
  (1 < 3 - 1)%nat /\
  solved (solver (Main.run Example.integrator Example.inverse (Odeint.integrate_n_steps 2)
                    Example.ecos Example.sevens 3 1))
  = numeric_problem
      (Main.linearize Example.integrator Example.inverse (Odeint.integrate_n_steps 2)
         Example.sevens 3 1
         (locals (Main.run Example.integrator Example.inverse (Odeint.integrate_n_steps 2)
                    Example.ecos Example.sevens 3 0)))
      (problem (Main.solver_setup Example.integrator 3))
    :: solved (solver (Main.run Example.integrator Example.inverse
                         (Odeint.integrate_n_steps 2) Example.ecos Example.sevens 3 0)).
Proof.
  assert (1 < 3 - 1)%nat as Hk by (simpl; lia).
  split; [exact Hk|].
  exact (proj1 (coefficients_fresh_at_every_solve Example.integrator Example.inverse
                  (Odeint.integrate_n_steps 2) Example.ecos 3 Example.sevens 0 1 0 0 Hk)).
Defined.

Lemma zero_assignment_within_bound (fr : frame) :
  holds fr (fun _ => 0)
    (norm2_le (Main.virtual_control_vector Example.integrator 3)
       (times (Constant 1) (Main.var "norm2_nu" []))).
Proof.
  unfold norm2_le, holds. rewrite virtual_control_values. simpl. unfold norm2. simpl.
  replace (0 * 0 + (0 * 0 + 0)) with 0 by lra. rewrite sqrt_0. lra.
Qed.

(** X11 at K = 3 and the assignment that is 0 everywhere. *)
Lemma X11_at_zero_assignment :
  let fr := locals (Main.before_loop Example.integrator Example.sevens 3) in
  let rho : assignment := fun _ => 0 in
  holds fr rho (norm2_le (Main.virtual_control_vector Example.integrator 3)
                  (times (Constant 1) (Main.var "norm2_nu" []))) /\
  rho (Main.var "norm2_nu" []) = 0 /\
  (1 < 3 - 1)%nat /\ (0 < n_states Example.integrator)%nat /\
  rho (Main.var "nu" [0; 1]%nat) = 0.
Proof.
  intros fr rho.
  assert (1 < 3 - 1)%nat as Hk by (simpl; lia).
  assert (0 < n_states Example.integrator)%nat as Hr by (simpl; lia).
  split; [exact (zero_assignment_within_bound fr)|].
  split; [reflexivity|]. split; [exact Hk|]. split; [exact Hr|].
  exact (proj1 (no_bound_no_slack Example.integrator 3 fr rho 1 0
                  (zero_assignment_within_bound fr) eq_refl Hk Hr)).
Defined.

(** X12 at K = 3 for the instance at rest. *)
Lemma X12_at_rest :
  let fr := locals (Main.before_loop Example.at_rest Example.sevens 3) in
  let fr' := Main.linearize Example.at_rest Example.inverse (Odeint.integrate_n_steps 2)
               Example.sevens 3 1 fr in
  let rho : assignment := fun _ => 0 in
  static Example.at_rest /\ Odeint.runge_kutta (Odeint.integrate_n_steps 2) /\
  (1 < 3 - 1)%nat /\ (0 < n_states Example.at_rest)%nat /\ sized (3 - 1) fr /\
  (holds fr' rho (eq_zero (Main.dynamics_equation Example.at_rest 1 0))
   <-> rho (Main.var "X" [0; 1 + 1]%nat)
       = rho (Main.var "X" [0; 1]%nat) + rho (Main.var "nu" [0; 1]%nat)).
Proof.
  intros fr fr' rho.
  assert (1 < 3 - 1)%nat as Hk by (simpl; lia).
  assert (0 < n_states Example.at_rest)%nat as Hr by (simpl; lia).
  assert (sized (3 - 1) fr) as Hsized by (repeat split; reflexivity).
  split; [exact at_rest_static|].
  split; [exact (integrate_n_steps_runge_kutta 2)|].
  split; [exact Hk|]. split; [exact Hr|]. split; [exact Hsized|].
  exact (static_dynamics_constraint Example.at_rest Example.inverse
           (Odeint.integrate_n_steps 2) Example.sevens 3 1 fr rho 1 0
           at_rest_static (integrate_n_steps_runge_kutta 2) Hk Hr Hsized).
Defined.

(** X13 at K = 3, interval 1: the two frames differ in X(0,0), which
    interval 1 does not read. *)
Lemma X13_at_three_points :
  let other := {| X_before := fun _ _ => 7; U_before := fun _ _ => 7;
                  array_before := fun _ _ _ _ => 0; V_before := fun _ _ _ _ => 1 |} in
  let fr1 := locals (Main.before_loop Example.integrator Example.sevens 3) in
  let fr2 := with_X (set_coeff (X fr1) 0 0 9) (locals (Main.before_loop Example.integrator other 3)) in
  (1 < 3 - 1)%nat /\ sized (3 - 1) fr1 /\ sized (3 - 1) fr2 /\
  X fr1 0%nat 0%nat <> X fr2 0%nat 0%nat /\
  A_bar (Main.linearize Example.integrator Example.inverse (Odeint.integrate_n_steps 2)
           Example.sevens 3 1 fr1) !! 1%nat
  = A_bar (Main.linearize Example.integrator Example.inverse (Odeint.integrate_n_steps 2)
             other 3 2 fr2) !! 1%nat.
Proof.
  intros other fr1 fr2.
  assert (1 < 3 - 1)%nat as Hk by (simpl; lia).
  assert (sized (3 - 1) fr1) as H1 by (repeat split; reflexivity).
  assert (sized (3 - 1) fr2) as H2 by (repeat split; reflexivity).
  assert (forall i, (i < n_states Example.integrator)%nat -> X fr1 i 1%nat = X fr2 i 1%nat)
    as HX.
  { intros i Hi. unfold fr2, with_X, set_coeff. cbn [X Nat.eqb].
    rewrite Bool.andb_false_r. reflexivity. }
  assert (forall i, (i < n_inputs Example.integrator)%nat -> U fr1 i 1%nat = U fr2 i 1%nat)
    as HU by (intros i Hi; reflexivity).
  assert (forall i, (i < n_inputs Example.integrator)%nat ->
            U fr1 i (1 + 1)%nat = U fr2 i (1 + 1)%nat)
    as HU1 by (intros i Hi; reflexivity).
  split; [exact Hk|]. split; [exact H1|]. split; [exact H2|].
  split; [simpl; unfold zeros, set_coeff; simpl; lra|].
  exact (interval_reads_its_own_nodes Example.integrator Example.inverse
           (Odeint.integrate_n_steps 2) 3 Example.sevens other 1 2 fr1 fr2 1
           Hk H1 H2 HX HU HU1 eq_refl InA_bar).
Defined.
